(** * transcode.py: batch transcoding driver, shallow embedding

    The program scans a directory for files with a given extension, runs an
    external encoder on each one towards a temporary file, promotes the
    temporary file to [<stem>-converted.mp4] on success, optionally deletes
    the source, and prints a summary.

    The embedding follows the script function by function:
    - [Pathlib]: the pure part of [pathlib] the script relies on
      ([stem], [suffix], [with_name], [with_suffix], name endings);
    - [Posix]: the file system as a finite map and the calls the script
      makes on it ([exists], [stat], [unlink], [rename], [glob], [rglob]),
      with the exceptions they raise on missing entries and on entries of
      the wrong kind;
    - the encoder is an opaque function (a [Section] variable): it is the
      only part of a run the script does not decide;
    - [transcode_file], [find_target_files], [process_file] (the body of
      the [for] loop of [main]) and [main] are translated statement by
      statement in a small monad that threads the file system, collects
      the trace of system calls and propagates exceptions.

    Scope of the model: POSIX semantics of [unlink] and [rename]; regular
    files and directories only (no symbolic links, no permissions, no limit
    on the length of a name), so a probe of a path always answers; an
    extension without pattern characters; the console output is left out,
    except for the progress lines and the last line of the summary; the
    encoder touches nothing but the output path it is given.  What is said
    of a run that reaches its end is said under the hypothesis that it
    returns. *)

From Stdlib Require Import ZArith String Ascii List DecimalString DecimalN.
From stdpp Require Import gmap strings list fin_maps.

(** ** Names: the string functions behind [pathlib] *)

Module Pathlib.

(** [name.rfind(c)]: index of the last occurrence, [None] for Python's -1. *)
Fixpoint rfind (c : ascii) (s : string) : option nat :=
  match s with
  | EmptyString => None
  | String a s' =>
      match rfind c s' with
      | Some i => Some (S i)
      | None => if Ascii.eqb a c then Some 0 else None
      end
  end.

(** [s[:n]] *)
Fixpoint str_take (n : nat) (s : string) : string :=
  match n, s with
  | S n', String a s' => String a (str_take n' s')
  | _, _ => EmptyString
  end.

(** [s[n:]] *)
Fixpoint str_drop (n : nat) (s : string) : string :=
  match n, s with
  | S n', String _ s' => str_drop n' s'
  | _, _ => s
  end.

(** [PurePath.suffix] (as in CPython up to 3.13):
    i = name.rfind('.'); name[i:] if 0 < i < len(name) - 1 else ''. *)
Definition suffix (name : string) : string :=
  match rfind "." name with
  | Some i =>
      if ((0 <? i) && (i + 1 <? String.length name))%nat
      then str_drop i name else ""
  | None => ""
  end.

(** [PurePath.stem]:
    i = name.rfind('.'); name[:i] if 0 < i < len(name) - 1 else name. *)
Definition stem (name : string) : string :=
  match rfind "." name with
  | Some i =>
      if ((0 <? i) && (i + 1 <? String.length name))%nat
      then str_take i name else name
  | None => name
  end.

(** The name computed by [PurePath.with_suffix]: the old suffix, when there
    is one, is cut off ([name[:-len(old_suffix)]]) and the new one appended. *)
Definition name_with_suffix (name sfx : string) : string :=
  let old_suffix := suffix name in
  match old_suffix with
  | EmptyString => name +:+ sfx
  | _ => str_take (String.length name - String.length old_suffix)%nat name +:+ sfx
  end.

(** [name.endswith(pat)]; the pattern [*.<ext>] of [glob] behaves so when
    [ext] holds no pattern character. *)
Definition ends_with (pat s : string) : bool :=
  String.eqb (str_drop (String.length s - String.length pat)%nat s) pat.

(** A path that has a name: the directory it lives in (its components from
    the root) and its last component.  Every path [glob] yields is one. *)
Definition dirpath : Type := list string.
Definition path : Type := (dirpath * string)%type.

Definition parent (p : path) : dirpath := p.1.
Definition name (p : path) : string := p.2.

(** The components of [p] from the root. *)
Definition parts (p : path) : dirpath := p.1 ++ [p.2].

(** [p.with_name(n)] *)
Definition with_name (p : path) (n : string) : path := (p.1, n).

(** [p.with_suffix(sfx)], for a valid [sfx] such as [".tmp.mp4"] *)
Definition with_suffix (p : path) (sfx : string) : path :=
  (p.1, name_with_suffix p.2 sfx).

End Pathlib.

Import Pathlib.

(** [dst = file.with_name(file.stem + "-converted.mp4")] (main, line 105) *)
Definition output_path (file : path) : path :=
  with_name file (stem (name file) +:+ "-converted.mp4").

(** [tmp_dst = dst.with_suffix(".tmp.mp4")] (transcode_file, line 50) *)
Definition tmp_path (dst : path) : path := with_suffix dst ".tmp.mp4".

(** ** The file system and the calls the script makes on it *)

Module Posix.

(** What a path holds: a regular file with its bytes, or a directory (with
    the [st_size] the host reports for it). *)
Inductive node : Type :=
  | File (data : list Byte.byte)
  | Dir (st_size : Z).

(** The file system: every existing entry under its path; the root
    directory itself is [[]] as a [dirpath] and always exists. *)
Abbreviation filesystem := (gmap path node).

(** The exceptions a run can meet; all of them derive from [Exception]. *)
Inductive exn : Type :=
  | FileNotFoundError
  | IsADirectoryError
  | NotADirectoryError
  | DirectoryNotEmpty
  | PopenError          (* raised by [subprocess.Popen]: no process started *)
  | StreamError.        (* raised while reading the output or waiting *)

(** The system calls that change or start something, in the order made. *)
Inductive event : Type :=
  | Popen (src tmp : path)
  | Exit (code : Z)
  | Rename (from to : path)
  | Unlink (p : path).

Inductive result (A : Type) : Type :=
  | Ok (a : A)
  | Raise (e : exn).
Global Arguments Ok {A} a.
Global Arguments Raise {A} e.

(** The outcome of running a piece of the script from a file system: its
    result, the file system it leaves, and the calls it made. *)
Record outcome (A : Type) : Type := Outcome {
  res : result A;
  fs_after : filesystem;
  trace : list event
}.
Global Arguments Outcome {A} res fs_after trace.
Global Arguments res {A} o.
Global Arguments fs_after {A} o.
Global Arguments trace {A} o.

Definition M (A : Type) : Type := filesystem → outcome A.

Definition ret {A} (a : A) : M A := λ fs, Outcome (Ok a) fs [].

Definition raise {A} (e : exn) : M A := λ fs, Outcome (Raise e) fs [].

Definition bind {A B} (m : M A) (k : A → M B) : M B := λ fs,
  let r := m fs in
  match res r with
  | Ok a =>
      let r' := k a (fs_after r) in
      Outcome (res r') (fs_after r') (trace r ++ trace r')
  | Raise e => Outcome (Raise e) (fs_after r) (trace r)
  end.

(** [try: m  except Exception as e: h e] *)
Definition try_except {A} (m : M A) (h : exn → M A) : M A := λ fs,
  let r := m fs in
  match res r with
  | Ok a => r
  | Raise e =>
      let r' := h e (fs_after r) in
      Outcome (res r') (fs_after r') (trace r ++ trace r')
  end.

(** [Path.exists()].  The host is taken to answer the probe for every
    path: a [stat] that fails for another reason than a missing entry (a name
    longer than the host allows, a directory that may not be searched), which
    [exists] re-raises, is outside the model. *)
Definition exists_ (p : path) : M bool := λ fs,
  ret (bool_decide (is_Some (fs !! p))) fs.

(** [Path.is_dir()] of a directory path; the root is one.  As for
    [exists], the probe is taken to answer. *)
Definition is_dir (fs : filesystem) (d : dirpath) : bool :=
  match d with
  | [] => true
  | _ => match fs !! (removelast d, List.last d ""%string) with
         | Some (Dir _) => true
         | _ => false
         end
  end.

(** The [st_size] of an entry: the number of bytes of a file. *)
Definition node_size (n : node) : Z :=
  match n with
  | File data => Z.of_nat (length data)
  | Dir sz => sz
  end.

(** [Path.stat().st_size] *)
Definition stat_size (p : path) : M Z := λ fs,
  match fs !! p with
  | Some n => ret (node_size n) fs
  | None => raise FileNotFoundError fs
  end.

(** [Path.unlink()]: removes a file, refuses a directory. *)
Definition unlink (p : path) : M unit := λ fs,
  match fs !! p with
  | Some (File _) => Outcome (Ok tt) (delete p fs) [Unlink p]
  | Some (Dir _) => raise IsADirectoryError fs
  | None => raise FileNotFoundError fs
  end.

(** [strip_prefix l k]: [Some r] when [k = l ++ r]. *)
Fixpoint strip_prefix (l k : dirpath) : option dirpath :=
  match l, k with
  | [], _ => Some k
  | x :: l', y :: k' => if decide (x = y) then strip_prefix l' k' else None
  | _ :: _, [] => None
  end.

(** Where an entry lands when the directory [a] is moved to [b]. *)
Definition rebase (a b k : path) : path :=
  if decide (k = a) then b
  else match strip_prefix (parts a) (parent k) with
       | Some rest => (parts b ++ rest, name k)
       | None => k
       end.

Definition move_tree (a b : path) (fs : filesystem) : filesystem :=
  list_to_map ((λ kv, (rebase a b kv.1, kv.2)) <$> map_to_list (delete b fs)).

Definition has_children (fs : filesystem) (p : path) : bool :=
  bool_decide (Exists (λ k, is_Some (strip_prefix (parts p) (parent k)))
                      (map_to_list fs).*1).

(** [Path.rename(target)], that is rename(2): a file replaces a file, a
    directory replaces an empty directory, the two kinds do not mix, and
    renaming an entry to itself does nothing. *)
Definition rename (a b : path) : M unit := λ fs,
  match fs !! a with
  | None => raise FileNotFoundError fs
  | Some (File data) =>
      match fs !! b with
      | Some (Dir _) => raise IsADirectoryError fs
      | _ => Outcome (Ok tt) (<[b := File data]> (delete a fs)) [Rename a b]
      end
  | Some (Dir _) =>
      if decide (a = b) then Outcome (Ok tt) fs [Rename a b]
      else
        match fs !! b with
        | Some (File _) => raise NotADirectoryError fs
        | Some (Dir _) =>
            if has_children fs b then raise DirectoryNotEmpty fs
            else Outcome (Ok tt) (move_tree a b fs) [Rename a b]
        | None => Outcome (Ok tt) (move_tree a b fs) [Rename a b]
        end
  end.

(** Every entry once, in a canonical order. *)
Definition entries (fs : filesystem) : list path := (map_to_list fs).*1.

(** The order in which the host lists the entries is its own business:
    [scandir] is any enumeration of the entries. *)
Definition lists_entries (scandir : filesystem → list path) : Prop :=
  ∀ fs, scandir fs ≡ₚ entries fs.

(** The characters that make the pattern [*.{ext}] more than a name
    ending: the wildcards of [fnmatch] and the separator. *)
Definition pattern_char (c : ascii) : bool :=
  match c with
  | "*"%char | "?"%char | "["%char | "/"%char => true
  | _ => false
  end.

(** An extension without any of them, such as [mkv]. *)
Fixpoint plain_ext (ext : string) : bool :=
  match ext with
  | EmptyString => true
  | String c ext' => negb (pattern_char c) && plain_ext ext'
  end.

(** [list(start.glob("*." + ext))] for a plain extension, where the pattern
    matches exactly the names that end in [.<ext>]: the direct children of
    [start] whose name matches; nothing when [start] is not a directory.
    What [fnmatch] makes of an extension with pattern characters is not
    modelled. *)
Definition glob (scandir : filesystem → list path) (start : dirpath)
    (ext : string) (fs : filesystem) : list path :=
  if is_dir fs start
  then filter (λ p, parent p = start
                    ∧ ends_with ("." +:+ ext) (name p) = true) (scandir fs)
  else [].

(** [list(start.rglob("*." + ext))] for a plain extension: the same at any
    depth below [start]. *)
Definition rglob (scandir : filesystem → list path) (start : dirpath)
    (ext : string) (fs : filesystem) : list path :=
  if is_dir fs start
  then filter (λ p, is_Some (strip_prefix start (parent p))
                    ∧ ends_with ("." +:+ ext) (name p) = true) (scandir fs)
  else [].

End Posix.

Import Posix.

Notation "x <- m ;; k" := (bind m (λ x, k))
  (at level 100, m at next level, right associativity, only parsing).
Notation "m ;;; k" := (bind m (λ _, k))
  (at level 100, right associativity, only parsing).

(** ** The external encoder *)

(** What the encoder did to its output path. *)
Inductive tmp_write : Type :=
  | Untouched
  | Written (data : list Byte.byte)
  | Removed.

(** How the subprocess ended, seen from the script: an exception while its
    output was read or it was waited for, or a return code. *)
Inductive enc_end : Type :=
  | Crashed
  | Exited (code : Z).

(** One invocation: [Popen] itself failed (binary missing), or a process ran. *)
Inductive enc_run : Type :=
  | LaunchFailure
  | Ran (w : tmp_write) (e : enc_end).

(** The encoder writes its output path and nothing else; it cannot turn a
    directory sitting at that path into a file. *)
Definition apply_write (fs : filesystem) (tmp : path) (w : tmp_write) : filesystem :=
  match fs !! tmp with
  | Some (Dir _) => fs
  | _ => match w with
         | Untouched => fs
         | Written data => <[tmp := File data]> fs
         | Removed => delete tmp fs
         end
  end.

(** ** Command line *)

Record args : Type := Args {
  args_start : dirpath;      (* --start, resolved *)
  args_ext : string;         (* --ext *)
  args_recursive : bool;     (* -r / -R *)
  args_reprocess : bool;     (* --reprocess *)
  args_delete : bool;        (* --delete *)
  args_commit : bool         (* -c / --commit *)
}.

(** ** The accumulators of [main] *)

Record tally : Type := Tally {
  processed : list (path * path);
  skipped : list path;
  deleted : list path;
  failed : list path;
  total_saved : Z
}.

Definition tally0 : tally := Tally [] [] [] [] 0.

Definition add_skipped (t : tally) (f : path) : tally :=
  Tally (processed t) (skipped t ++ [f]) (deleted t) (failed t) (total_saved t).
Definition add_deleted (t : tally) (f : path) : tally :=
  Tally (processed t) (skipped t) (deleted t ++ [f]) (failed t) (total_saved t).
Definition add_processed (t : tally) (f dst : path) : tally :=
  Tally (processed t ++ [(f, dst)]) (skipped t) (deleted t) (failed t) (total_saved t).
Definition add_failed (t : tally) (f : path) : tally :=
  Tally (processed t) (skipped t) (deleted t) (failed t ++ [f]) (total_saved t).
Definition add_saved (t : tally) (n : Z) : tally :=
  Tally (processed t) (skipped t) (deleted t) (failed t) (total_saved t + n).

(** ** The script *)

Section Script.

(** The order in which the host enumerates directory entries. *)
Variable scandir : filesystem → list path.

(** The encoder is outside the script: whatever it does on one invocation,
    given the file system it runs on and its two path arguments. *)
Variable encoder : filesystem → path → path → enc_run.

(** [subprocess.Popen([...])], the loop over [process.stdout] and
    [process.wait()]: the return code, or the exception raised on the way. *)
Definition run_encoder (src tmp : path) : M Z := λ fs,
  match encoder fs src tmp with
  | LaunchFailure => Outcome (Raise PopenError) fs [Popen src tmp]
  | Ran w Crashed =>
      Outcome (Raise StreamError) (apply_write fs tmp w) [Popen src tmp]
  | Ran w (Exited code) =>
      Outcome (Ok code) (apply_write fs tmp w) [Popen src tmp; Exit code]
  end.

(** [if tmp_dst.exists(): tmp_dst.unlink()] *)
Definition cleanup (tmp_dst : path) : M unit :=
  ex <- exists_ tmp_dst ;;
  if ex then unlink tmp_dst else ret tt.

(** [transcode_file(src, dst, dry_run, index, total)]; [index] and [total]
    only feed the console and are left out. *)
Definition transcode_file (src dst : path) (dry_run : bool) : M bool :=
  let tmp_dst := tmp_path dst in
  if dry_run then ret true
  else
    try_except
      (returncode <- run_encoder src tmp_dst ;;
       if negb (returncode =? 0)%Z
       then (cleanup tmp_dst ;;; ret false)
       else (rename tmp_dst dst ;;; ret true))
      (λ _, cleanup tmp_dst ;;; ret false).

(** [find_target_files(start_path, ext, recursive)] *)
Definition find_target_files (start_path : dirpath) (ext : string)
    (recursive : bool) (fs : filesystem) : list path :=
  if recursive then rglob scandir start_path ext fs
  else glob scandir start_path ext fs.

(** The body of the [for] loop of [main] for one candidate. *)
Definition process_file (a : args) (t : tally) (file : path) : M tally :=
  let dst := output_path file in
  dst_exists <- exists_ dst ;;
  if dst_exists && negb (args_reprocess a) then
    let t := add_skipped t file in
    if args_commit a && args_delete a
    then (unlink file ;;; ret (add_deleted t file))
    else ret t
  else
    src_size <- stat_size file ;;
    success <- transcode_file file dst (negb (args_commit a)) ;;
    if success then
      let t := add_processed t file dst in
      if args_commit a then
        new_size <- stat_size dst ;;
        let t := add_saved t (src_size - new_size) in
        if args_delete a
        then (unlink file ;;; ret (add_deleted t file))
        else ret t
      else ret t
    else ret (add_failed t file).

(** [for i, file in enumerate(targets, 1): ...] *)
Fixpoint process_all (a : args) (t : tally) (targets : list path) : M tally :=
  match targets with
  | [] => ret t
  | file :: rest => t' <- process_file a t file ;; process_all a t' rest
  end.

(** [main()] up to the summary: the scan, then the pass. *)
Definition main (a : args) : M tally := λ fs,
  let targets :=
    find_target_files (args_start a) (args_ext a) (args_recursive a) fs in
  process_all a tally0 targets fs.

(** The exit status of the interpreter: 0 when [main] returns, 1 when an
    exception reaches the top level. *)
Definition exit_code {A} (o : outcome A) : Z :=
  match res o with
  | Ok _ => 0
  | Raise _ => 1
  end.

End Script.

(** ** The last line of the summary *)

(** The integer nearest to [a / d], for [0 ≤ a] and [0 < d], ties going to
    the even one: the rounding of binary64 arithmetic and of [format]. *)
Definition round_half_even (a d : Z) : Z :=
  let q := (a / d)%Z in
  let r := (a mod d)%Z in
  if (d <? 2 * r)%Z then (q + 1)%Z
  else if (2 * r =? d)%Z && Z.odd q then (q + 1)%Z
  else q.

(** The binary64 float nearest to the integer [m ≥ 0], as the integer it is
    equal to: [m] itself up to 53 bits, and beyond that [m] rounded to 53
    significant bits. *)
Definition binary64 (m : Z) : Z :=
  let e := (Z.log2 m - 52)%Z in
  if (e <=? 0)%Z then m else (round_half_even m (2 ^ e) * 2 ^ e)%Z.

(** [n / (1024**2)] for an integer [n]: Python's true division gives the
    float nearest to the quotient, which for a divisor that is a power of
    two is the float nearest to [n], scaled.  The result is [Some x] for the
    float [x / 2^20], and [None] when Python raises [OverflowError] because
    the quotient is too large for a float. *)
Definition true_divide_mib (n : Z) : option Z :=
  let m := binary64 (Z.abs n) in
  if (2 ^ 1044 <=? m)%Z then None else Some (Z.sgn n * m)%Z.

(** The digits of [f"{x:.2f}"] for the number [x = n / d], [0 < d]: its
    absolute value in hundredths, rounded to the nearest, ties to even. *)
Definition hundredths (n d : Z) : Z := round_half_even (Z.abs n * 100) d.

Definition decimal (z : Z) : string := NilZero.string_of_uint (N.to_uint (Z.to_N z)).

Definition two_digits (z : Z) : string :=
  if (z <? 10)%Z then "0" +:+ decimal z else decimal z.

(** [f"{x:.2f}"] for the number [x = n / d]: the sign of [x] (a negative
    number that rounds to zero keeps its minus sign), the integer part, the
    point and two decimals. *)
Definition format_2f (n d : Z) : string :=
  let h := hundredths n d in
  (if (n <? 0)%Z then "-" else "") +:+ decimal (h / 100) +:+ "." +:+ two_digits (h mod 100).

Inductive last_line : Type :=
  | SpaceSaved (text : string)   (* "Total space saved: <text> MB" *)
  | DryRunNotice                 (* "(DRY RUN ... Use -c to commit changes.)" *)
  | DivisionOverflow.            (* OverflowError raised by the division *)

(** [if args.commit: print(f"... {total_saved / (1024**2):.2f} MB") else: ...] *)
Definition report (a : args) (t : tally) : last_line :=
  if args_commit a
  then match true_divide_mib (total_saved t) with
       | Some x => SpaceSaved (format_2f x (1024 ^ 2))
       | None => DivisionOverflow
       end
  else DryRunNotice.

(** ** Notions used in the statements *)

(** The loop body skips a candidate whose output exists, unless asked to
    reprocess. *)
Definition is_skip (a : args) (fs : filesystem) (file : path) : bool :=
  bool_decide (is_Some (fs !! output_path file)) && negb (args_reprocess a).

(** [file.unlink(); deleted.append(file)] after the calls [tr]: how the loop
    body ends when it deletes the source. *)
Definition unlink_then (file : path) (tr : list event) (t : tally)
    (fs : filesystem) : outcome tally :=
  match fs !! file with
  | Some (File _) => Outcome (Ok (add_deleted t file)) (delete file fs) (tr ++ [Unlink file])
  | Some (Dir _) => Outcome (Raise IsADirectoryError) fs tr
  | None => Outcome (Raise FileNotFoundError) fs tr
  end.

(** How every failing path of the transcode step ends: the temporary file is
    removed when there is one, and [False] is returned; a directory at the
    temporary path makes [unlink] raise, in the handler too. *)
Definition after_failure (tmp : path) (tr : list event) (fs : filesystem)
    : outcome bool :=
  match fs !! tmp with
  | None => Outcome (Ok false) fs tr
  | Some (File _) => Outcome (Ok false) (delete tmp fs) (tr ++ [Unlink tmp])
  | Some (Dir _) => Outcome (Raise IsADirectoryError) fs tr
  end.

(** The ways the loop body can leave the accumulators for [file]. *)
Inductive verdict : Type :=
  | VSkipped (del : bool)
  | VProcessed (saved : option Z) (del : bool)
  | VFailed.

Definition record_verdict (t : tally) (file : path) (v : verdict) : tally :=
  match v with
  | VSkipped del =>
      let t := add_skipped t file in
      if del then add_deleted t file else t
  | VProcessed saved del =>
      let t := add_processed t file (output_path file) in
      let t := match saved with Some n => add_saved t n | None => t end in
      if del then add_deleted t file else t
  | VFailed => add_failed t file
  end.

(** The candidates the accumulators have classified so far. *)
Definition classified (t : tally) : list path :=
  (processed t).*1 ++ skipped t ++ failed t.


(** No directory sits at the temporary path. *)
Definition tmp_free (fs : filesystem) (tmp : path) : Prop :=
  ∀ sz, fs !! tmp ≠ Some (Dir sz).

(** A scan result the pass can go through without meeting an unguarded
    exception: the candidates are distinct regular files, no directory sits
    at a temporary path, and no candidate is the temporary or output path
    of a candidate. *)
Definition tidy (fs : filesystem) (targets : list path) : Prop :=
  NoDup targets
  ∧ (∀ f, f ∈ targets → ∃ data, fs !! f = Some (File data))
  ∧ (∀ f, f ∈ targets → tmp_free fs (tmp_path (output_path f)))
  ∧ (∀ f g, f ∈ targets → g ∈ targets →
       g ≠ tmp_path (output_path f) ∧ g ≠ output_path f).

(** Every rename in the trace comes right after the launch of the encoder
    for some candidate of [targets] and its return with code 0, and promotes
    that candidate's temporary file. *)
Definition renames_follow_success (targets : list path) (tr : list event) : Prop :=
  ∀ pre x y post, tr = pre ++ Rename x y :: post →
    ∃ pre' file, file ∈ targets
      ∧ pre = pre' ++ [Popen file x; Exit 0]
      ∧ x = tmp_path (output_path file) ∧ y = output_path file.

(** The size [stat] reports for a path, 0 when nothing is there. *)
Definition st_size (fs : filesystem) (p : path) : Z :=
  match fs !! p with
  | Some n => node_size n
  | None => 0
  end.

Definition is_ok_true (r : result bool) : bool :=
  match r with
  | Ok true => true
  | _ => false
  end.

Section SavingsSpec.

Variable encoder : filesystem → path → path → enc_run.

(** The candidate is sent to the encoder in commit mode and the transcode
    step succeeds. *)
Definition transcoded (a : args) (fs : filesystem) (file : path) : bool :=
  negb (is_skip a fs file)
  && is_ok_true (res (transcode_file encoder file (output_path file) false fs)).

(** Size of the source before transcoding minus size of the output after. *)
Definition saving (fs : filesystem) (file : path) : Z :=
  st_size fs file
  - st_size (fs_after (transcode_file encoder file (output_path file) false fs))
            (output_path file).

(** The total the summary should show, following the words of the
    specification: the sum of [saving] over the candidates that are
    successfully transcoded, each one taken in the file system the pass has
    reached when it gets to it. *)
Fixpoint spec_total_saved (a : args) (targets : list path) (fs : filesystem) : Z :=
  match targets with
  | [] => 0
  | file :: rest =>
      ((if transcoded a fs file then saving fs file else 0)
       + spec_total_saved a rest (fs_after (process_file encoder a tally0 file fs)))%Z
  end.

Fixpoint spec_processed (a : args) (targets : list path) (fs : filesystem)
    : list (path * path) :=
  match targets with
  | [] => []
  | file :: rest =>
      (if transcoded a fs file then [(file, output_path file)] else [])
      ++ spec_processed a rest (fs_after (process_file encoder a tally0 file fs))
  end.

End SavingsSpec.

(** ** Reading the last line back *)

(** [h] is the integer nearest to [a / d], the even one of the two when
    [a / d] lies half way. *)
Definition nearest_half_even (a d h : Z) : Prop :=
  (0 ≤ h)%Z ∧ (2 * Z.abs (a - h * d) ≤ d)%Z
  ∧ ((2 * Z.abs (a - h * d) = d)%Z → Z.even h = true).

(** [m] is the value of the binary64 float nearest to the integer [n ≥ 0]:
    [n] itself below [2^53]; from there on the nearest multiple of [2^e],
    ties to the even multiple, where [2^(52+e) ≤ n < 2^(53+e)]. *)
Definition is_binary64_of (n m : Z) : Prop :=
  ((n < 2 ^ 53)%Z ∧ m = n)
  ∨ ∃ e k, (0 < e)%Z ∧ (2 ^ (52 + e) ≤ n < 2 ^ (53 + e))%Z
           ∧ nearest_half_even n (2 ^ e) k ∧ m = (k * 2 ^ e)%Z.

(** A decimal numeral read as a number. *)
Definition read_decimal (s : string) : option Z :=
  (λ d, Z.of_N (N.of_uint d)) <$> NilZero.uint_of_string s.

(** A string cut at its first point. *)
Fixpoint split_dot (s : string) : option (string * string) :=
  match s with
  | EmptyString => None
  | String c s' =>
      if Ascii.eqb c "." then Some (EmptyString, s')
      else match split_dot s' with
           | Some (i, f) => Some (String c i, f)
           | None => None
           end
  end.

(** Digits, a point and exactly two digits, read as a number of
    hundredths. *)
Definition read_fixed2 (body : string) : option Z :=
  match split_dot body with
  | Some (i, f) =>
      if (String.length f =? 2)%nat then
        match read_decimal i, read_decimal f with
        | Some a, Some b => Some (100 * a + b)%Z
        | _, _ => None
        end
      else None
  | None => None
  end.

(** A number printed with two decimals, read back: whether it carries a
    minus sign, and its absolute value in hundredths. *)
Definition read_2f (s : string) : option (bool * Z) :=
  match s with
  | String c s' =>
      if Ascii.eqb c "-" then (λ h, (true, h)) <$> read_fixed2 s'
      else (λ h, (false, h)) <$> read_fixed2 s
  | EmptyString => None
  end.

Definition is_digit (c : ascii) : bool :=
  (48 <=? nat_of_ascii c)%nat && (nat_of_ascii c <=? 57)%nat.

Fixpoint all_digits (s : string) : bool :=
  match s with
  | EmptyString => true
  | String c s' => is_digit c && all_digits s'
  end.

(** ** Sample inputs *)

Definition fs_a : filesystem :=
  list_to_map [ (([], "v"), Dir 4096);
                ((["v"], "a.mkv"), File [Byte.x00; Byte.x01; Byte.x02; Byte.x03]) ].

Definition fs_b : filesystem :=
  list_to_map [ (([], "v"), Dir 4096);
                ((["v"], "b.mkv"), File [Byte.x00; Byte.x01; Byte.x02]);
                ((["v"], "b-converted.mp4"), File [Byte.x07]) ].


Definition fs_dir_at_tmp : filesystem :=
  list_to_map [ (([], "v"), Dir 4096);
                ((["v"], "a.mkv"), File [Byte.x00; Byte.x01]);
                ((["v"], "a-converted.tmp.mp4"), Dir 4096) ].

Definition fs_mp4 : filesystem :=
  list_to_map [ (([], "v"), Dir 4096);
                ((["v"], "x.mp4"), File [Byte.x00; Byte.x01]);
                ((["v"], "x-converted.mp4"), File [Byte.x07]) ].

Definition fs_mix : filesystem :=
  list_to_map [ (([], "v"), Dir 4096);
                ((["v"], "a.mkv"), File [Byte.x00; Byte.x01; Byte.x02]);
                ((["v"], "a-converted.mp4"), File [Byte.x07]);
                ((["v"], "b.mkv"), File [Byte.x00; Byte.x01; Byte.x02; Byte.x03]);
                ((["v"], "c.mkv"), File [Byte.x00; Byte.x01]) ].

(** An encoder that fails on [c.mkv] and halves everything else. *)
Definition enc_mixed : filesystem → path → path → enc_run :=
  λ _ src _, if decide (name src = "c.mkv")
             then Ran (Written [Byte.x09]) (Exited 3)
             else Ran (Written [Byte.x09; Byte.x09]) (Exited 0).

(** An encoder that returns 0 and writes nothing. *)
Definition enc_silent : filesystem → path → path → enc_run :=
  λ _ _ _, Ran Untouched (Exited 0).

Definition enc_ok : filesystem → path → path → enc_run :=
  λ _ _ _, Ran (Written [Byte.x09; Byte.x09]) (Exited 0).

Definition enc_exit3 : filesystem → path → path → enc_run :=
  λ _ _ _, Ran (Written [Byte.x09]) (Exited 3).

Definition enc_grow : filesystem → path → path → enc_run :=
  λ _ _ _, Ran (Written [Byte.x09; Byte.x09; Byte.x09; Byte.x09; Byte.x09; Byte.x09])
               (Exited 0).

(** ** The progress display of [transcode_file] *)

(** [str.isspace()] on one character; a line of the encoder's output is
    taken as a sequence of code points below 256. *)
Definition is_space (c : ascii) : bool :=
  match nat_of_ascii c with
  | 9 | 10 | 11 | 12 | 13 | 28 | 29 | 30 | 31 | 32 | 133 | 160 => true
  | _ => false
  end.

(** [s.lstrip()] *)
Fixpoint lstrip (s : string) : string :=
  match s with
  | String c s' => if is_space c then lstrip s' else s
  | EmptyString => EmptyString
  end.

(** [s.rstrip()] *)
Fixpoint rstrip (s : string) : string :=
  match s with
  | String c s' =>
      match rstrip s' with
      | EmptyString => if is_space c then EmptyString else String c EmptyString
      | r => String c r
      end
  | EmptyString => EmptyString
  end.

(** [s.strip()] *)
Definition strip (s : string) : string := rstrip (lstrip s).

(** [end='\r'] *)
Definition carriage_return : string := String (ascii_of_nat 13) EmptyString.

(** What the loop over [process.stdout] writes to the console, one item per
    [print]: [if line.startswith("Encoding:"): print(line.strip(), end='\r')]
    (transcode_file, lines 68-70). *)
Definition progress_display (lines : list string) : list string :=
  (λ line, strip line +:+ carriage_return)
    <$> filter (λ line, String.prefix "Encoding:" line = true) lines.

(** The sources the encoder was started on, in the order of the launches. *)
Definition launched (tr : list event) : list path :=
  omap (λ e, match e with Popen src _ => Some src | _ => None end) tr.

(** ** Notions used in the further properties *)

(** The calls one candidate can give rise to. *)
Definition candidate_call (a : args) (file : path) (e : event) : Prop :=
  e = Popen file (tmp_path (output_path file))
  ∨ (∃ c, e = Exit c)
  ∨ e = Unlink (tmp_path (output_path file))
  ∨ e = Rename (tmp_path (output_path file)) (output_path file)
  ∨ (e = Unlink file ∧ args_commit a = true ∧ args_delete a = true).

(** What the flags allow the loop body to record. *)
Definition verdict_ok (a : args) (v : verdict) : Prop :=
  match v with
  | VSkipped del =>
      args_reprocess a = false ∧ del = args_commit a && args_delete a
  | VProcessed saved del =>
      del = args_commit a && args_delete a
      ∧ (saved = None ↔ args_commit a = false)
  | VFailed => args_commit a = true
  end.

(** What a pass over [targets] appends to the four collections. *)
Record growth (a : args) (targets : list path)
    (p : list (path * path)) (s f d : list path) : Prop := Growth {
  growth_processed : p.*1 `sublist_of` targets;
  growth_skipped : s `sublist_of` targets;
  growth_failed : f `sublist_of` targets;
  growth_deleted : d `sublist_of` targets;
  growth_pairs : Forall (λ pr, pr.2 = output_path pr.1) p;
  growth_reprocess : args_reprocess a = true → s = [];
  growth_dry : args_commit a = false → f = [];
  growth_keep : args_commit a && args_delete a = false → d = [];
  growth_delete : args_commit a && args_delete a = true → d ≡ₚ p.*1 ++ s
}.

Definition verdict_deletes (v : verdict) : bool :=
  match v with
  | VSkipped del | VProcessed _ del => del
  | VFailed => false
  end.

(** What the loop body has done to the file system for a regular file
    [file] holding [data], according to what it recorded. *)
Definition step_effect (a : args) (fs fs' : filesystem) (file : path)
    (data : list Byte.byte) (v : verdict) : Prop :=
  let dst := output_path file in
  let tmp := tmp_path dst in
  (∀ p, p ≠ file → p ≠ tmp → p ≠ dst → fs' !! p = fs !! p)
  ∧ (is_Some (fs !! dst) → is_Some (fs' !! dst))
  ∧ (fs !! tmp = None → fs' !! tmp = None)
  ∧ fs' !! file = (if verdict_deletes v then None else Some (File data))
  ∧ match v with
    | VProcessed _ _ =>
        args_commit a = true → fs' !! tmp = None ∧ is_Some (fs' !! dst)
    | VFailed => fs' !! tmp = None
    | VSkipped _ => True
    end.

(** What a verdict appends to each collection. *)
Definition verdict_lists (file : path) (v : verdict)
    : list (path * path) * list path * list path * list path :=
  (match v with VProcessed _ _ => [(file, output_path file)] | _ => [] end,
   match v with VSkipped _ => [file] | _ => [] end,
   match v with VFailed => [file] | _ => [] end,
   if verdict_deletes v then [file] else []).

(** The state of the candidates of [targets] in the file system [final] a
    pass leaves, [fs] being the one it started from and [p], [f], [d] what
    it appended to processed, failed and deleted. *)
Definition end_state (a : args) (targets : list path) (fs final : filesystem)
    (p : list (path * path)) (f d : list path) : Prop :=
  ∀ x, x ∈ targets →
    (x ∈ d → final !! x = None)
    ∧ ((x ∉ d) → final !! x = fs !! x)
    ∧ (x ∈ p.*1 → args_commit a = true →
         is_Some (final !! output_path x)
         ∧ final !! tmp_path (output_path x) = None)
    ∧ (x ∈ f → final !! tmp_path (output_path x) = None).

(** * Properties *)

Example output_path_a :
  output_path (["videos"], "a.mkv") = (["videos"], "a-converted.mp4").
Proof. reflexivity. Qed.

Example tmp_path_a :
  tmp_path (["videos"], "a-converted.mp4") = (["videos"], "a-converted.tmp.mp4").
Proof. reflexivity. Qed.

Example output_path_hidden :
  output_path ([], ".mkv") = ([], ".mkv-converted.mp4").
Proof. reflexivity. Qed.

Example output_path_two_dots :
  output_path ([], "a.b.mkv") = ([], "a.b-converted.mp4").
Proof. reflexivity. Qed.

(** ** Facts about names *)

Section NameFacts.

Lemma str_app_cons a (s t : string) : String a s +:+ t = String a (s +:+ t).
Proof. reflexivity. Qed.

Lemma str_app_nil (t : string) : "" +:+ t = t.
Proof. reflexivity. Qed.

Lemma str_length_app (s t : string) :
  String.length (s +:+ t) = String.length s + String.length t.
Proof. induction s as [|a s IH]; [done|]. rewrite str_app_cons. simpl. by rewrite IH. Qed.

Lemma str_app_inv_head (s t u : string) : s +:+ t = s +:+ u → t = u.
Proof.
  induction s as [|a s IH]; [done|].
  rewrite !str_app_cons. intros [= H]. by apply IH.
Qed.

Lemma str_take_drop n (s : string) : str_take n s +:+ str_drop n s = s.
Proof.
  revert s. induction n as [|n IH]; intros [|a s]; simpl; try done.
  rewrite str_app_cons. by rewrite IH.
Qed.

Lemma str_take_app (s t : string) : str_take (String.length s) (s +:+ t) = s.
Proof.
  induction s as [|a s IH].
  - by destruct t.
  - rewrite str_app_cons. simpl. by rewrite IH.
Qed.

Lemma str_drop_app (s t : string) : str_drop (String.length s) (s +:+ t) = t.
Proof. induction s as [|a s IH]; [by destruct t|]. by rewrite str_app_cons. Qed.

Lemma rfind_app c (s t : string) :
  rfind c (s +:+ t) =
    match rfind c t with
    | Some i => Some (String.length s + i)
    | None => rfind c s
    end.
Proof.
  induction s as [|a s IH].
  - rewrite str_app_nil. by destruct (rfind c t).
  - rewrite str_app_cons. simpl. rewrite IH. by destruct (rfind c t).
Qed.

(** The index [rfind] returns is inside the string and holds the character. *)
Lemma rfind_Some c (s : string) i :
  rfind c s = Some i → ∃ t, str_drop i s = String c t.
Proof.
  revert i. induction s as [|a s IH]; intros i; simpl; [done|].
  destruct (rfind c s) as [j|] eqn:Hj.
  - intros [= <-]. simpl. by apply IH.
  - destruct (Ascii.eqb_spec a c) as [->|]; [|done].
    intros [= <-]. simpl. eauto.
Qed.

Lemma stem_suffix (n : string) : stem n +:+ suffix n = n.
Proof.
  unfold stem, suffix. destruct (rfind "." n) as [i|].
  - destruct (_ && _); [apply str_take_drop|].
    clear. induction n as [|a n IH]; [done|]. by rewrite str_app_cons, IH.
  - clear. induction n as [|a n IH]; [done|]. by rewrite str_app_cons, IH.
Qed.

(** A suffix is empty or starts with a dot. *)
Lemma suffix_shape (n : string) : suffix n = "" ∨ ∃ t, suffix n = String "." t.
Proof.
  unfold suffix. destruct (rfind "." n) as [i|] eqn:Hi; [|by left].
  destruct (_ && _); [|by left]. right. by eapply rfind_Some.
Qed.

(** A name differs from whatever is built from its stem and an ending that
    does not start with a dot. *)
Lemma stem_app_ne (n : string) a e :
  a ≠ "."%char → stem n +:+ String a e ≠ n.
Proof.
  intros Ha Heq. rewrite <-(stem_suffix n) in Heq at 2.
  apply str_app_inv_head in Heq.
  destruct (suffix_shape n) as [H|[t H]]; rewrite H in Heq; congruence.
Qed.

Lemma stem_dot_mp4 (y : string) :
  y ≠ "" → stem (y +:+ ".mp4") = y.
Proof.
  intros Hy. unfold stem. rewrite rfind_app. simpl rfind.
  rewrite str_length_app. simpl String.length. rewrite Nat.add_0_r.
  destruct y as [|a y]; [done|]. simpl String.length.
  replace (0 <? S _) with true by (symmetry; apply Nat.ltb_lt; lia).
  replace (S _ + 1 <? _) with true by (symmetry; apply Nat.ltb_lt; lia).
  simpl andb. cbv iota. apply (str_take_app (String a y)).
Qed.

Lemma suffix_dot_mp4 (y : string) :
  y ≠ "" → suffix (y +:+ ".mp4") = ".mp4".
Proof.
  intros Hy. pose proof (stem_suffix (y +:+ ".mp4")) as H.
  rewrite stem_dot_mp4 in H by done. by apply str_app_inv_head in H.
Qed.

Lemma name_with_suffix_mp4 (y sfx : string) :
  y ≠ "" → name_with_suffix (y +:+ ".mp4") sfx = y +:+ sfx.
Proof.
  intros Hy. unfold name_with_suffix. rewrite suffix_dot_mp4 by done.
  rewrite str_length_app. simpl String.length.
  replace (_ + 4 - 4) with (String.length y) by lia.
  by rewrite str_take_app.
Qed.

Lemma str_app_assoc (s t u : string) : (s +:+ t) +:+ u = s +:+ t +:+ u.
Proof. induction s as [|a s IH]; [done|]. by rewrite !str_app_cons, IH. Qed.

Lemma str_app_ne_nil (s : string) a t : s +:+ String a t ≠ "".
Proof. by destruct s. Qed.

Lemma ends_with_app (pat s : string) : ends_with pat (s +:+ pat) = true.
Proof.
  unfold ends_with. rewrite str_length_app.
  replace (_ + _ - _) with (String.length s) by lia.
  rewrite str_drop_app. apply String.eqb_refl.
Qed.

End NameFacts.

(** ** The three paths of one candidate are pairwise distinct *)

Lemma output_path_name (file : path) :
  name (output_path file) = (stem (name file) +:+ "-converted") +:+ ".mp4".
Proof. unfold output_path, with_name, name. simpl. by rewrite str_app_assoc. Qed.

Lemma tmp_path_output (file : path) :
  tmp_path (output_path file)
  = (parent file, stem (name file) +:+ "-converted.tmp.mp4").
Proof.
  destruct file as [d n]. unfold tmp_path, with_suffix, output_path, with_name.
  unfold parent, name. simpl. f_equal.
  replace (stem n +:+ "-converted.mp4")
    with ((stem n +:+ "-converted") +:+ ".mp4") by apply str_app_assoc.
  rewrite name_with_suffix_mp4 by apply str_app_ne_nil.
  apply str_app_assoc.
Qed.

Lemma output_ne_file (file : path) : output_path file ≠ file.
Proof.
  destruct file as [d n]. unfold output_path, with_name, name. simpl.
  intros [= H]. by eapply stem_app_ne in H.
Qed.

Lemma tmp_ne_file (file : path) : tmp_path (output_path file) ≠ file.
Proof.
  rewrite tmp_path_output. destruct file as [d n]. unfold parent, name. simpl.
  intros [= H]. by eapply stem_app_ne in H.
Qed.

Lemma tmp_ne_output (file : path) : tmp_path (output_path file) ≠ output_path file.
Proof.
  rewrite tmp_path_output. unfold output_path, with_name, parent.
  intros [= H]. apply str_app_inv_head in H. discriminate.
Qed.

(** ** The monad *)

Lemma bind_res_Ok {A B} (m : M A) (k : A → M B) (fs : filesystem) (b : B) :
  res (bind m k fs) = Ok b →
  ∃ a, res (m fs) = Ok a ∧ res (k a (fs_after (m fs))) = Ok b.
Proof. unfold bind. destruct (res (m fs)) as [a|e]; simpl; [eauto|done]. Qed.

Lemma bind_Ok_eq {A B} (m : M A) (k : A → M B) (fs : filesystem) (a : A) :
  res (m fs) = Ok a →
  bind m k fs =
    Outcome (res (k a (fs_after (m fs)))) (fs_after (k a (fs_after (m fs))))
            (trace (m fs) ++ trace (k a (fs_after (m fs)))).
Proof. unfold bind. by intros ->. Qed.


Lemma outcome_eta {A} (o : outcome A) :
  Outcome (res o) (fs_after o) (trace o) = o.
Proof. by destruct o. Qed.

Lemma bind_eq {A B} (m : M A) (k : A → M B) (fs : filesystem) :
  bind m k fs =
    match res (m fs) with
    | Ok a => Outcome (res (k a (fs_after (m fs))))
                      (fs_after (k a (fs_after (m fs))))
                      (trace (m fs) ++ trace (k a (fs_after (m fs))))
    | Raise e => Outcome (Raise e) (fs_after (m fs)) (trace (m fs))
    end.
Proof. reflexivity. Qed.

Lemma bind_exists {B} (p : path) (k : bool → M B) (fs : filesystem) :
  bind (exists_ p) k fs = k (bool_decide (is_Some (fs !! p))) fs.
Proof. rewrite bind_eq. simpl. apply outcome_eta. Qed.

Lemma bind_stat_size {B} (p : path) (k : Z → M B) (fs : filesystem) :
  bind (stat_size p) k fs =
    match fs !! p with
    | Some n => k (node_size n) fs
    | None => Outcome (Raise FileNotFoundError) fs []
    end.
Proof.
  rewrite bind_eq. unfold stat_size.
  destruct (fs !! p); simpl; [apply outcome_eta|done].
Qed.

(** ** The scan *)

Lemma entries_lookup (fs : filesystem) (p : path) :
  p ∈ entries fs ↔ is_Some (fs !! p).
Proof.
  unfold entries. rewrite list_elem_of_fmap. split.
  - intros [[k v] [-> Hkv]]. apply elem_of_map_to_list in Hkv. by eexists.
  - intros [v Hv]. exists (p, v). split; [done|]. by apply elem_of_map_to_list.
Qed.

Lemma entries_NoDup (fs : filesystem) : NoDup (entries fs).
Proof. apply NoDup_fst_map_to_list. Qed.

Lemma entries_lists_entries : lists_entries entries.
Proof. by intros fs. Qed.

Section Scan.

Variable scandir : filesystem → list path.
Hypothesis scandir_entries : lists_entries scandir.

Lemma find_target_files_spec (start : dirpath) (ext : string) (recursive : bool)
    (fs : filesystem) (p : path) :
  p ∈ find_target_files scandir start ext recursive fs ↔
    is_dir fs start = true ∧ is_Some (fs !! p)
    ∧ ends_with ("." +:+ ext) (name p) = true
    ∧ (if recursive then is_Some (strip_prefix start (parent p))
       else parent p = start).
Proof.
  unfold find_target_files, rglob, glob.
  destruct recursive, (is_dir fs start);
    rewrite ?list_elem_of_filter, ?(scandir_entries fs), ?entries_lookup,
            ?elem_of_nil;
    intuition congruence.
Qed.

Lemma find_target_files_NoDup (start : dirpath) (ext : string) (recursive : bool)
    (fs : filesystem) :
  NoDup (find_target_files scandir start ext recursive fs).
Proof.
  assert (Hnd : NoDup (scandir fs)).
  { rewrite (scandir_entries fs). apply entries_NoDup. }
  unfold find_target_files, rglob, glob.
  destruct recursive, (is_dir fs start);
    try apply NoDup_nil_2; by apply NoDup_filter.
Qed.

End Scan.

(** ** What one candidate adds to the accumulators *)

Section Accounting.

Variable encoder : filesystem → path → path → enc_run.

Lemma process_file_verdict (a : args) (t : tally) (file : path) (fs : filesystem)
    (t' : tally) :
  res (process_file encoder a t file fs) = Ok t' →
  ∃ v, t' = record_verdict t file v.
Proof.
  unfold process_file. intros H.
  apply bind_res_Ok in H as (ex & _ & H).
  destruct (ex && negb _).
  - destruct (_ && _).
    + apply bind_res_Ok in H as (_ & _ & [= <-]). by exists (VSkipped true).
    + injection H as <-. by exists (VSkipped false).
  - apply bind_res_Ok in H as (sz & _ & H).
    apply bind_res_Ok in H as ([] & _ & H).
    + destruct (args_commit a).
      * apply bind_res_Ok in H as (sz' & _ & H). destruct (args_delete a).
        -- apply bind_res_Ok in H as (_ & _ & [= <-]).
           by exists (VProcessed (Some (sz - sz')%Z) true).
        -- injection H as <-. by exists (VProcessed (Some (sz - sz')%Z) false).
      * injection H as <-. by exists (VProcessed None false).
    + injection H as <-. by exists VFailed.
Qed.

Lemma record_verdict_classified (t : tally) (file : path) (v : verdict) :
  classified (record_verdict t file v) ≡ₚ classified t ++ [file].
Proof.
  unfold classified.
  destruct v as [[]|[n|] []|]; simpl; rewrite ?fmap_app; simpl;
    solve_Permutation.
Qed.

Lemma record_verdict_mono (t : tally) (file : path) (v : verdict) (f : path) :
  (f ∈ (processed t).*1 → f ∈ (processed (record_verdict t file v)).*1)
  ∧ (f ∈ skipped t → f ∈ skipped (record_verdict t file v)).
Proof.
  destruct v as [[]|[n|] []|]; simpl; rewrite ?fmap_app, ?elem_of_app; tauto.
Qed.

Lemma record_verdict_deleted (t : tally) (file : path) (v : verdict) (f : path) :
  f ∈ deleted (record_verdict t file v) →
  f ∈ deleted t
  ∨ f ∈ (processed (record_verdict t file v)).*1
  ∨ f ∈ skipped (record_verdict t file v).
Proof.
  destruct v as [[]|[n|] []|]; simpl;
    rewrite ?fmap_app, ?elem_of_app, ?list_elem_of_singleton; simpl;
    rewrite ?list_elem_of_singleton; tauto.
Qed.

Lemma process_all_classified (a : args) (targets : list path) :
  ∀ (t : tally) (fs : filesystem) (t' : tally),
  res (process_all encoder a t targets fs) = Ok t' →
  classified t' ≡ₚ classified t ++ targets
  ∧ (∀ f, f ∈ (processed t).*1 → f ∈ (processed t').*1)
  ∧ (∀ f, f ∈ skipped t → f ∈ skipped t')
  ∧ (∀ f, f ∈ deleted t' →
       f ∈ deleted t ∨ f ∈ (processed t').*1 ∨ f ∈ skipped t').
Proof.
  induction targets as [|file rest IH]; intros t fs t' H.
  - injection H as <-. rewrite app_nil_r. repeat split; auto.
  - simpl in H. apply bind_res_Ok in H as (t1 & H1 & H).
    apply process_file_verdict in H1 as [v ->].
    apply IH in H as (Hperm & Hp & Hs & Hd).
    pose proof (record_verdict_mono t file v) as Hmono.
    repeat split.
    + rewrite Hperm, record_verdict_classified.
      by rewrite <-(assoc_L (++)).
    + intros f Hf. by apply Hp, Hmono.
    + intros f Hf. by apply Hs, Hmono.
    + intros f Hf. destruct (Hd f Hf) as [Hf'|Hf']; [|tauto].
      apply record_verdict_deleted in Hf' as [?|[?|?]]; auto.
Qed.

End Accounting.

(** ** The transcode step, case by case *)

Lemma cleanup_eq (tmp : path) (fs : filesystem) :
  cleanup tmp fs =
    match fs !! tmp with
    | None => Outcome (Ok tt) fs []
    | Some (File _) => Outcome (Ok tt) (delete tmp fs) [Unlink tmp]
    | Some (Dir _) => Outcome (Raise IsADirectoryError) fs []
    end.
Proof.
  unfold cleanup, bind, exists_, unlink, ret, raise. simpl.
  destruct (fs !! tmp) as [[d|sz]|] eqn:E; simpl; rewrite ?E; try done.
Qed.

Lemma rename_trace (x y : path) (fs : filesystem) :
  match res (rename x y fs) with
  | Ok _ => trace (rename x y fs) = [Rename x y]
  | Raise _ => trace (rename x y fs) = [] ∧ fs_after (rename x y fs) = fs
  end.
Proof.
  unfold rename, raise.
  destruct (fs !! x) as [[d|sz]|]; [| |done].
  - by destruct (fs !! y) as [[d'|sz']|].
  - destruct (decide (x = y)); [done|].
    destruct (fs !! y) as [[d'|sz']|]; try done.
    by destruct (has_children fs y).
Qed.

Section Transcode.

Variable encoder : filesystem → path → path → enc_run.

Lemma transcode_file_live (src dst : path) (fs : filesystem) :
  transcode_file encoder src dst false fs =
    let tmp := tmp_path dst in
    match encoder fs src tmp with
    | LaunchFailure => after_failure tmp [Popen src tmp] fs
    | Ran w Crashed => after_failure tmp [Popen src tmp] (apply_write fs tmp w)
    | Ran w (Exited code) =>
        let fs1 := apply_write fs tmp w in
        if (code =? 0)%Z then
          match res (rename tmp dst fs1) with
          | Ok _ => Outcome (Ok true) (fs_after (rename tmp dst fs1))
                            [Popen src tmp; Exit code; Rename tmp dst]
          | Raise _ => after_failure tmp [Popen src tmp; Exit code] fs1
          end
        else after_failure tmp [Popen src tmp; Exit code] fs1
    end.
Proof.
  unfold transcode_file, try_except, bind, run_encoder, after_failure, ret.
  cbv zeta.
  destruct (encoder fs src (tmp_path dst)) as [|w [|code]];
    cbn -[cleanup rename tmp_path apply_write Z.eqb].
  - rewrite cleanup_eq.
    destruct (fs !! tmp_path dst) as [[d|sz]|]; cbn; by rewrite ?app_nil_r.
  - rewrite cleanup_eq.
    destruct (apply_write fs (tmp_path dst) w !! tmp_path dst) as [[d|sz]|];
      cbn; by rewrite ?app_nil_r.
  - set (fs1 := apply_write fs (tmp_path dst) w).
    destruct (code =? 0)%Z; cbn -[cleanup rename tmp_path apply_write].
    + pose proof (rename_trace (tmp_path dst) dst fs1) as Hr.
      destruct (res (rename (tmp_path dst) dst fs1)) as [[]|e];
        cbn -[cleanup rename tmp_path apply_write].
      * by rewrite Hr.
      * destruct Hr as [-> ->]. rewrite cleanup_eq.
        destruct (fs1 !! tmp_path dst) as [[d|sz]|]; cbn; by rewrite ?app_nil_r.
    + rewrite cleanup_eq.
      destruct (fs1 !! tmp_path dst) as [[d|sz]|] eqn:E;
        cbn -[cleanup rename tmp_path apply_write].
      * by rewrite ?app_nil_r.
      * rewrite cleanup_eq, E. cbn. by rewrite ?app_nil_r.
      * by rewrite ?app_nil_r.
Qed.

End Transcode.

(** ** The loop body, case by case *)

Section LoopBody.

Variable encoder : filesystem → path → path → enc_run.

Lemma process_file_eq (a : args) (t : tally) (file : path) (fs : filesystem) :
  process_file encoder a t file fs =
    let dst := output_path file in
    if is_skip a fs file then
      if args_commit a && args_delete a
      then unlink_then file [] (add_skipped t file) fs
      else Outcome (Ok (add_skipped t file)) fs []
    else
      match fs !! file with
      | None => Outcome (Raise FileNotFoundError) fs []
      | Some n =>
          let o := transcode_file encoder file dst (negb (args_commit a)) fs in
          match res o with
          | Raise e => Outcome (Raise e) (fs_after o) (trace o)
          | Ok false => Outcome (Ok (add_failed t file)) (fs_after o) (trace o)
          | Ok true =>
              let t1 := add_processed t file dst in
              if args_commit a then
                match fs_after o !! dst with
                | None => Outcome (Raise FileNotFoundError) (fs_after o) (trace o)
                | Some n' =>
                    let t2 := add_saved t1 (node_size n - node_size n') in
                    if args_delete a
                    then unlink_then file (trace o) t2 (fs_after o)
                    else Outcome (Ok t2) (fs_after o) (trace o)
                end
              else Outcome (Ok t1) (fs_after o) (trace o)
          end
      end.
Proof.
  unfold process_file, is_skip, unlink_then. cbv zeta.
  rewrite bind_exists.
  destruct (_ && negb _).
  - destruct (_ && _); [|done].
    rewrite bind_eq. unfold unlink, raise, ret.
    by destruct (fs !! file) as [[d|sz]|].
  - rewrite bind_stat_size.
    destruct (fs !! file) as [n|]; [|done].
    rewrite bind_eq.
    destruct (transcode_file encoder file (output_path file)
                             (negb (args_commit a)) fs) as [[[]|e] fs' tr];
      cbn [res fs_after trace]; try done.
    + destruct (args_commit a); [|by rewrite app_nil_r].
      rewrite bind_stat_size.
      destruct (fs' !! output_path file) as [n'|]; cbn [res fs_after trace];
        [|by rewrite app_nil_r].
      destruct (args_delete a); [|by rewrite !app_nil_r].
      rewrite bind_eq. unfold unlink, raise, ret.
      destruct (fs' !! file) as [[d|sz]|]; cbn; by rewrite ?app_nil_r.
    + by rewrite app_nil_r.
Qed.

End LoopBody.

(** ** Dry run *)

Section DryRun.

Variable encoder : filesystem → path → path → enc_run.

Lemma transcode_file_dry (src dst : path) (fs : filesystem) :
  transcode_file encoder src dst true fs = Outcome (Ok true) fs [].
Proof. reflexivity. Qed.

Lemma process_file_dry (a : args) (t : tally) (file : path) (fs : filesystem) :
  args_commit a = false →
  let o := process_file encoder a t file fs in
  fs_after o = fs ∧ trace o = []
  ∧ ∀ t', res o = Ok t' → failed t' = failed t ∧ deleted t' = deleted t.
Proof.
  intros Hc. cbv zeta. rewrite process_file_eq, Hc. cbn.
  destruct (is_skip a fs file).
  - split; [done|]. split; [done|]. by intros t' [= <-].
  - destruct (fs !! file) as [n|]; cbn; [|done].
    split; [done|]. split; [done|]. by intros t' [= <-].
Qed.

Lemma process_all_dry (a : args) (targets : list path) :
  ∀ (t : tally) (fs : filesystem),
  args_commit a = false →
  let o := process_all encoder a t targets fs in
  fs_after o = fs ∧ trace o = []
  ∧ ∀ t', res o = Ok t' → failed t' = failed t ∧ deleted t' = deleted t.
Proof.
  induction targets as [|file rest IH]; intros t fs Hc.
  - split; [done|]. split; [done|]. by intros t' [= <-].
  - cbn [process_all]. cbv zeta. rewrite bind_eq.
    destruct (process_file_dry a t file fs Hc) as (Hfs & Htr & Ht).
    destruct (res (process_file encoder a t file fs)) as [t1|e] eqn:E;
      cbn [res fs_after trace]; [|done].
    rewrite Hfs, Htr.
    destruct (IH t1 fs Hc) as (Hfs' & Htr' & Ht').
    split; [done|]. split; [done|].
    intros t' Hres. destruct (Ht t1 eq_refl) as [<- <-]. by apply Ht'.
Qed.

Lemma main_dry (scandir : filesystem → list path) (a : args) (fs : filesystem) :
  args_commit a = false →
  let o := main scandir encoder a fs in
  fs_after o = fs ∧ trace o = []
  ∧ ∀ t, res o = Ok t → failed t = [] ∧ deleted t = [].
Proof. intros Hc. unfold main. by apply (process_all_dry a _ tally0 fs Hc). Qed.

End DryRun.

(** ** What the calls leave untouched *)

Lemma apply_write_ne (fs : filesystem) (tmp p : path) (w : tmp_write) :
  p ≠ tmp → apply_write fs tmp w !! p = fs !! p.
Proof.
  intros Hne. unfold apply_write.
  destruct (fs !! tmp) as [[d|sz]|]; destruct w; try done;
    by rewrite ?lookup_insert_ne, ?lookup_delete_ne.
Qed.

Lemma apply_write_untouched (fs : filesystem) (tmp : path) :
  apply_write fs tmp Untouched = fs.
Proof. unfold apply_write. by destruct (fs !! tmp) as [[d|sz]|]. Qed.

(** The encoder creates no directory. *)
Lemma apply_write_dir (fs : filesystem) (tmp p : path) (w : tmp_write) sz :
  apply_write fs tmp w !! p = Some (Dir sz) → fs !! p = Some (Dir sz).
Proof.
  destruct (decide (p = tmp)) as [->|Hne]; [|by rewrite apply_write_ne].
  unfold apply_write.
  destruct (fs !! tmp) as [[d|sz']|] eqn:E; destruct w; try by rewrite ?E.
  all: by rewrite ?lookup_insert_eq, ?lookup_delete_eq.
Qed.

Lemma after_failure_ne (tmp p : path) (tr : list event) (fs : filesystem) :
  p ≠ tmp → fs_after (after_failure tmp tr fs) !! p = fs !! p.
Proof.
  intros Hne. unfold after_failure.
  destruct (fs !! tmp) as [[d|sz]|]; simpl; by rewrite ?lookup_delete_ne.
Qed.

Lemma after_failure_dir (tmp p : path) (tr : list event) (fs : filesystem) sz :
  fs_after (after_failure tmp tr fs) !! p = Some (Dir sz) → fs !! p = Some (Dir sz).
Proof.
  unfold after_failure.
  destruct (fs !! tmp) as [[d|sz']|] eqn:E; simpl; try done.
  destruct (decide (p = tmp)) as [->|Hne];
    by rewrite ?lookup_delete_eq, ?lookup_delete_ne.
Qed.

Lemma after_failure_not_true (tmp : path) (tr : list event) (fs : filesystem) :
  res (after_failure tmp tr fs) ≠ Ok true.
Proof. unfold after_failure. by destruct (fs !! tmp) as [[d|sz]|]. Qed.

(** Without a directory at the temporary path the failing paths return
    [False] and leave nothing there. *)
Lemma after_failure_clean (tmp : path) (tr : list event) (fs : filesystem) :
  (∀ sz, fs !! tmp ≠ Some (Dir sz)) →
  res (after_failure tmp tr fs) = Ok false
  ∧ fs_after (after_failure tmp tr fs) !! tmp = None.
Proof.
  intros Hnd. unfold after_failure.
  destruct (fs !! tmp) as [[d|sz]|] eqn:E; simpl.
  - by rewrite lookup_delete_eq.
  - by destruct (Hnd sz).
  - done.
Qed.

Lemma after_failure_trace (tmp : path) (tr : list event) (fs : filesystem) e :
  e ∈ trace (after_failure tmp tr fs) → e ∈ tr ∨ e = Unlink tmp.
Proof.
  unfold after_failure. destruct (fs !! tmp) as [[d|sz]|]; simpl; auto.
  rewrite elem_of_app, list_elem_of_singleton. tauto.
Qed.

Lemma rename_file (x y : path) (fs : filesystem) d :
  fs !! x = Some (File d) →
  rename x y fs =
    match fs !! y with
    | Some (Dir _) => Outcome (Raise IsADirectoryError) fs []
    | _ => Outcome (Ok tt) (<[y := File d]> (delete x fs)) [Rename x y]
    end.
Proof. unfold rename. by intros ->. Qed.

Lemma rename_missing (x y : path) (fs : filesystem) :
  fs !! x = None → rename x y fs = Outcome (Raise FileNotFoundError) fs [].
Proof. unfold rename. by intros ->. Qed.

(** A list of calls that holds no rename. *)
Ltac no_rename H :=
  repeat (apply elem_of_cons in H as [H|H]; [discriminate H|]);
  by apply elem_of_nil in H.

(** ** Facts about the transcode step *)

Section TranscodeFacts.

Variable encoder : filesystem → path → path → enc_run.

Lemma apply_write_tmp_free (fs : filesystem) (tmp : path) (w : tmp_write) :
  tmp_free fs tmp → tmp_free (apply_write fs tmp w) tmp.
Proof. intros Hf sz H%apply_write_dir. by apply (Hf sz). Qed.

(** A rename in the trace of the transcode step is the promotion of the
    temporary file, made right after the encoder returned 0. *)
Lemma transcode_file_rename (src dst : path) (fs : filesystem) (x y : path) :
  Rename x y ∈ trace (transcode_file encoder src dst false fs) →
  x = tmp_path dst ∧ y = dst
  ∧ res (transcode_file encoder src dst false fs) = Ok true
  ∧ trace (transcode_file encoder src dst false fs)
    = [Popen src (tmp_path dst); Exit 0; Rename (tmp_path dst) dst]
  ∧ ∃ w, encoder fs src (tmp_path dst) = Ran w (Exited 0).
Proof.
  rewrite transcode_file_live. cbv zeta.
  destruct (encoder fs src (tmp_path dst)) as [|w [|code]] eqn:E.
  - intros [H|H]%after_failure_trace; [no_rename H|done].
  - intros [H|H]%after_failure_trace; [no_rename H|done].
  - destruct (Z.eqb_spec code 0) as [->|Hc].
    + destruct (res (rename _ _ _)) as [[]|e].
      * simpl. intros H.
        apply elem_of_cons in H as [H|H]; [discriminate H|].
        apply elem_of_cons in H as [H|H]; [discriminate H|].
        apply elem_of_cons in H as [H|H]; [|by apply elem_of_nil in H].
        injection H as -> ->. eauto 10.
      * intros [H|H]%after_failure_trace; [no_rename H|done].
    + intros [H|H]%after_failure_trace; [no_rename H|done].
Qed.

Lemma transcode_file_true (src dst : path) (fs : filesystem) :
  res (transcode_file encoder src dst false fs) = Ok true →
  ∃ w, encoder fs src (tmp_path dst) = Ran w (Exited 0)
       ∧ res (rename (tmp_path dst) dst (apply_write fs (tmp_path dst) w)) = Ok tt
       ∧ fs_after (transcode_file encoder src dst false fs)
         = fs_after (rename (tmp_path dst) dst (apply_write fs (tmp_path dst) w))
       ∧ trace (transcode_file encoder src dst false fs)
         = [Popen src (tmp_path dst); Exit 0; Rename (tmp_path dst) dst].
Proof.
  rewrite transcode_file_live. cbv zeta.
  destruct (encoder fs src (tmp_path dst)) as [|w [|code]] eqn:E;
    try (by intros H%after_failure_not_true).
  destruct (Z.eqb_spec code 0) as [->|Hc];
    [|by intros H%after_failure_not_true].
  destruct (res (rename _ _ _)) as [[]|e] eqn:Er;
    [|by intros H%after_failure_not_true].
  intros _. exists w. by rewrite Er.
Qed.

(** Unless the step succeeds, the output path holds what it held. *)
Lemma transcode_file_dst_kept (src dst : path) (fs : filesystem) :
  tmp_path dst ≠ dst →
  res (transcode_file encoder src dst false fs) ≠ Ok true →
  fs_after (transcode_file encoder src dst false fs) !! dst = fs !! dst.
Proof.
  intros Hne. rewrite transcode_file_live. cbv zeta.
  destruct (encoder fs src (tmp_path dst)) as [|w [|code]] eqn:E.
  - intros _. by rewrite after_failure_ne.
  - intros _. by rewrite after_failure_ne, apply_write_ne.
  - destruct (code =? 0)%Z.
    + destruct (res (rename _ _ _)) as [[]|e]; [done|].
      intros _. by rewrite after_failure_ne, apply_write_ne.
    + intros _. by rewrite after_failure_ne, apply_write_ne.
Qed.

End TranscodeFacts.

Lemma is_skip_true (a : args) (fs : filesystem) (file : path) :
  is_Some (fs !! output_path file) → args_reprocess a = false →
  is_skip a fs file = true.
Proof.
  intros Hex Hr. unfold is_skip. by rewrite bool_decide_eq_true_2, Hr.
Qed.

Section LoopBodyFacts.

Variable encoder : filesystem → path → path → enc_run.

(** The calls of the loop body are those of the transcode step, followed at
    most by the removal of the source; a skipped candidate costs at most
    that removal. *)
Lemma process_file_shape (a : args) (t : tally) (file : path) (fs : filesystem) :
  let o := process_file encoder a t file fs in
  let step :=
    transcode_file encoder file (output_path file) (negb (args_commit a)) fs in
  (trace o = [] ∧ fs_after o = fs)
  ∨ (trace o = [Unlink file] ∧ fs_after o = delete file fs)
  ∨ (is_skip a fs file = false ∧ is_Some (fs !! file)
     ∧ ((trace o = trace step ∧ fs_after o = fs_after step)
        ∨ (res step = Ok true ∧ trace o = trace step ++ [Unlink file]
           ∧ fs_after o = delete file (fs_after step)))).
Proof.
  intros o step. subst o. rewrite process_file_eq. cbv zeta. unfold unlink_then.
  destruct (is_skip a fs file).
  - destruct (_ && _); [|by left].
    destruct (fs !! file) as [[d|sz]|]; auto.
  - destruct (fs !! file) as [n|]; [|by left].
    right; right. split; [done|]. split; [done|]. fold step.
    destruct (res step) as [[]|e] eqn:Er; auto.
    destruct (args_commit a); auto.
    destruct (fs_after step !! output_path file) as [n'|]; auto.
    destruct (args_delete a); auto.
    destruct (fs_after step !! file) as [[d|sz]|]; auto.
Qed.

(** When the encoder does not return 0, the loop body leaves the output
    path as it was. *)
Lemma process_file_dst_kept (a : args) (t : tally) (file : path) (fs : filesystem) :
  args_commit a = true →
  (∀ w, encoder fs file (tmp_path (output_path file)) ≠ Ran w (Exited 0)) →
  fs_after (process_file encoder a t file fs) !! output_path file
  = fs !! output_path file.
Proof.
  intros Hc Hfail.
  destruct (process_file_shape a t file fs) as [[_ ->]|[[_ ->]|(_ & _ & H)]].
  - done.
  - apply lookup_delete_ne, not_eq_sym, output_ne_file.
  - rewrite Hc in H. cbn [negb] in H.
    assert (Hnt : res (transcode_file encoder file (output_path file) false fs)
                  ≠ Ok true).
    { intros (w & Hw & _)%transcode_file_true. by apply (Hfail w). }
    destruct H as [[_ ->]|[Ht _]]; [|done].
    apply transcode_file_dst_kept; [apply tmp_ne_output|done].
Qed.

End LoopBodyFacts.

(** ** Runs that complete *)

Section Completion.

Variable encoder : filesystem → path → path → enc_run.

Lemma transcode_file_tmp_free (src dst : path) (fs : filesystem) :
  tmp_free fs (tmp_path dst) →
  let o := transcode_file encoder src dst false fs in
  (∃ b, res o = Ok b)
  ∧ (∀ p, p ≠ tmp_path dst → p ≠ dst → fs_after o !! p = fs !! p)
  ∧ (∀ p sz, fs_after o !! p = Some (Dir sz) → fs !! p = Some (Dir sz))
  ∧ (res o = Ok true → ∃ data, fs_after o !! dst = Some (File data)).
Proof.
  intros Hfree o. subst o. rewrite transcode_file_live. cbv zeta.
  assert (Hfail : ∀ tr w,
    let o := after_failure (tmp_path dst) tr (apply_write fs (tmp_path dst) w) in
    (∃ b, res o = Ok b)
    ∧ (∀ p, p ≠ tmp_path dst → p ≠ dst → fs_after o !! p = fs !! p)
    ∧ (∀ p sz, fs_after o !! p = Some (Dir sz) → fs !! p = Some (Dir sz))
    ∧ (res o = Ok true → ∃ data, fs_after o !! dst = Some (File data))).
  { intros tr w o.
    pose proof (apply_write_tmp_free fs _ w Hfree) as Hfree'.
    destruct (after_failure_clean (tmp_path dst) tr _ Hfree') as [Hr _].
    fold o in Hr. repeat split.
    - eauto.
    - intros p Hp _. subst o. by rewrite after_failure_ne, apply_write_ne.
    - intros p sz H%after_failure_dir. by eapply apply_write_dir.
    - by rewrite Hr. }
  destruct (encoder fs src (tmp_path dst)) as [|w [|code]] eqn:E.
  - pose proof (Hfail [Popen src (tmp_path dst)] Untouched) as H.
    by rewrite apply_write_untouched in H.
  - apply Hfail.
  - destruct (code =? 0)%Z; [|apply Hfail].
    pose proof (apply_write_tmp_free fs _ w Hfree) as Hfree'.
    destruct (apply_write fs (tmp_path dst) w !! tmp_path dst)
      as [[d|sz]|] eqn:Et.
    + rewrite (rename_file _ _ _ _ Et).
      destruct (apply_write fs (tmp_path dst) w !! dst) as [[d'|sz']|] eqn:Ed;
        cbn [res fs_after]; try apply Hfail.
      all: repeat split; eauto.
      all: try (intros p Hp Hd;
                by rewrite lookup_insert_ne, lookup_delete_ne, apply_write_ne).
      all: try (intros _; rewrite lookup_insert_eq; eauto).
      all: intros p sz; destruct (decide (dst = p)) as [<-|Hd];
           [by rewrite lookup_insert_eq|rewrite lookup_insert_ne by done];
           destruct (decide (tmp_path dst = p)) as [<-|Ht];
           [by rewrite lookup_delete_eq|rewrite lookup_delete_ne by done];
           apply apply_write_dir.
    + by destruct (Hfree' sz).
    + rewrite rename_missing by done. cbn [res]. apply Hfail.
Qed.

(** A regular file whose temporary path is free gets through the loop body,
    which touches nothing but the candidate's three paths and creates no
    directory. *)
Lemma process_file_total (a : args) (t : tally) (file : path) (fs : filesystem)
    (data : list Byte.byte) :
  fs !! file = Some (File data) →
  tmp_free fs (tmp_path (output_path file)) →
  let o := process_file encoder a t file fs in
  (∃ t', res o = Ok t')
  ∧ (∀ p, p ≠ file → p ≠ tmp_path (output_path file) → p ≠ output_path file →
       fs_after o !! p = fs !! p)
  ∧ (∀ p sz, fs_after o !! p = Some (Dir sz) → fs !! p = Some (Dir sz)).
Proof.
  intros Hfile Hfree o. subst o. rewrite process_file_eq. cbv zeta.
  unfold unlink_then.
  assert (Hdel : ∀ (fs' : filesystem) p sz,
            (∀ q sz, fs' !! q = Some (Dir sz) → fs !! q = Some (Dir sz)) →
            delete file fs' !! p = Some (Dir sz) → fs !! p = Some (Dir sz)).
  { intros fs' p sz Hd. destruct (decide (file = p)) as [<-|Hne];
      [by rewrite lookup_delete_eq|rewrite lookup_delete_ne by done; apply Hd]. }
  destruct (is_skip a fs file).
  - destruct (_ && _); rewrite ?Hfile; cbn [res fs_after]; repeat split; eauto.
    intros p Hp _ _. by rewrite lookup_delete_ne.
  - rewrite Hfile. destruct (args_commit a); cbn [negb].
    + destruct (transcode_file_tmp_free file (output_path file) fs Hfree)
        as ([b Hb] & Hframe & Hdir & Hdst).
      set (step := transcode_file encoder file (output_path file) false fs) in *.
      rewrite Hb. destruct b; [|cbn [res fs_after]; repeat split; eauto].
      destruct (Hdst Hb) as [d' ->].
      assert (Hf : fs_after step !! file = Some (File data)).
      { rewrite Hframe; [done|apply not_eq_sym, tmp_ne_file
                              |apply not_eq_sym, output_ne_file]. }
      destruct (args_delete a); rewrite ?Hf; cbn [res fs_after];
        repeat split; eauto.
      intros p Hp Ht Hd. rewrite lookup_delete_ne by done. by apply Hframe.
    + rewrite transcode_file_dry. cbn [res fs_after]. repeat split; eauto.
Qed.

End Completion.

(** ** Candidates and derived paths for another extension than mp4 *)

Lemma mkv_is_not_mp4 (y : string) : ends_with ".mkv" (y +:+ ".mp4") = false.
Proof.
  unfold ends_with. rewrite str_length_app.
  replace (_ + _ - _) with (String.length y) by (simpl; lia).
  by rewrite str_drop_app.
Qed.

(** When no name ends both in [.<ext>] and in [.mp4], no candidate is the
    temporary or the output path of a candidate. *)
Lemma find_target_files_separate (scandir : filesystem → list path)
    (start : dirpath) (ext : string) (recursive : bool) (fs : filesystem)
    (f g : path) :
  lists_entries scandir →
  (∀ y, ends_with ("." +:+ ext) (y +:+ ".mp4") = false) →
  g ∈ find_target_files scandir start ext recursive fs →
  g ≠ tmp_path (output_path f) ∧ g ≠ output_path f.
Proof.
  intros Hs Hext (_ & _ & Hname & _)%find_target_files_spec; [|done].
  split; intros ->.
  - rewrite tmp_path_output in Hname. unfold name in Hname. simpl in Hname.
    replace (stem f.2 +:+ "-converted.tmp.mp4")
      with ((stem f.2 +:+ "-converted.tmp") +:+ ".mp4") in Hname
      by apply str_app_assoc.
    by rewrite Hext in Hname.
  - rewrite output_path_name in Hname. by rewrite Hext in Hname.
Qed.

(** ** Earlier outputs are candidates too *)

Lemma strip_prefix_refl (d : dirpath) : strip_prefix d d = Some [].
Proof. induction d as [|x d IH]; [done|]. simpl. by rewrite decide_True. Qed.

Lemma output_path_converted (d : dirpath) (x : string) :
  output_path (d, x +:+ "-converted.mp4") = (d, x +:+ "-converted-converted.mp4").
Proof.
  unfold output_path, with_name, name. simpl. f_equal.
  replace (x +:+ "-converted.mp4") with ((x +:+ "-converted") +:+ ".mp4")
    by apply str_app_assoc.
  rewrite stem_dot_mp4 by apply str_app_ne_nil.
  apply str_app_assoc.
Qed.

(** ** Space saved *)

Section Savings.

Variable encoder : filesystem → path → path → enc_run.

(** The accumulators do not steer the loop body. *)
Lemma process_file_fs_after (a : args) (t t0 : tally) (file : path) (fs : filesystem) :
  fs_after (process_file encoder a t file fs)
  = fs_after (process_file encoder a t0 file fs).
Proof.
  rewrite !process_file_eq. cbv zeta. unfold unlink_then.
  destruct (is_skip a fs file).
  - destruct (_ && _); [|done]. by destruct (fs !! file) as [[d|sz]|].
  - destruct (fs !! file) as [n|]; [|done].
    destruct (res _) as [[]|e]; try done.
    destruct (args_commit a); [|done].
    destruct (fs_after _ !! output_path file) as [n'|]; [|done].
    destruct (args_delete a); [|done].
    by destruct (fs_after _ !! file) as [[d|sz]|].
Qed.

Lemma process_file_saved (a : args) (t t1 : tally) (file : path) (fs : filesystem) :
  args_commit a = true →
  res (process_file encoder a t file fs) = Ok t1 →
  processed t1
  = processed t ++ (if transcoded encoder a fs file then [(file, output_path file)] else [])
  ∧ total_saved t1
    = (total_saved t + (if transcoded encoder a fs file then saving encoder fs file else 0))%Z.
Proof.
  intros Hc. rewrite process_file_eq. cbv zeta.
  unfold transcoded, saving, st_size, unlink_then. rewrite Hc. cbn [negb andb].
  destruct (is_skip a fs file); cbn [negb andb].
  - destruct (args_delete a).
    + destruct (fs !! file) as [[d|sz]|]; [|done..].
      intros [= <-]. simpl. by rewrite app_nil_r, Z.add_0_r.
    + intros [= <-]. simpl. by rewrite app_nil_r, Z.add_0_r.
  - destruct (fs !! file) as [n|]; [|done].
    destruct (transcode_file encoder file (output_path file) false fs)
      as [[[]|e] fs' tr]; cbn [res fs_after trace is_ok_true]; [| |done].
    + destruct (fs' !! output_path file) as [n'|]; [|done].
      destruct (args_delete a).
      * destruct (fs' !! file) as [[d|sz]|]; [|done..].
        by intros [= <-].
      * by intros [= <-].
    + intros [= <-]. simpl. by rewrite app_nil_r, Z.add_0_r.
Qed.

Lemma process_all_saved (a : args) (targets : list path) :
  ∀ (t t' : tally) (fs : filesystem),
  args_commit a = true →
  res (process_all encoder a t targets fs) = Ok t' →
  processed t' = processed t ++ spec_processed encoder a targets fs
  ∧ total_saved t' = (total_saved t + spec_total_saved encoder a targets fs)%Z.
Proof.
  induction targets as [|file rest IH]; intros t t' fs Hc H.
  - injection H as <-. simpl. by rewrite app_nil_r, Z.add_0_r.
  - cbn [process_all] in H. apply bind_res_Ok in H as (t1 & H1 & H).
    rewrite (process_file_fs_after a t tally0) in H.
    apply IH in H as [Hp Hs]; [|done].
    apply process_file_saved in H1 as [Hp1 Hs1]; [|done].
    cbn [spec_processed spec_total_saved].
    rewrite Hp, Hs, Hp1, Hs1. split; [by rewrite (assoc_L (++))|lia].
Qed.

End Savings.

(** ** The printed number *)

Lemma round_half_even_nearest (a d : Z) :
  (0 ≤ a)%Z → (0 < d)%Z → nearest_half_even a d (round_half_even a d).
Proof.
  intros Ha Hd. unfold nearest_half_even, round_half_even.
  pose proof (Z.div_mod a d ltac:(lia)) as Hdm.
  pose proof (Z.mod_pos_bound a d Hd) as Hr.
  assert (Hq : (0 ≤ a / d)%Z) by (apply Z.div_pos; lia).
  set (q := (a / d)%Z) in *.
  set (r := (a mod d)%Z) in *.
  destruct (Z.ltb_spec d (2 * r)).
  - split; [lia|]. split; [nia|]. intros Heq. exfalso. nia.
  - destruct (Z.eqb_spec (2 * r) d) as [He|Hne]; cbn [andb].
    + destruct (Z.odd q) eqn:Hodd.
      * split; [lia|]. split; [nia|]. intros _.
        rewrite Z.even_add, <-Z.negb_odd, Hodd. reflexivity.
      * split; [lia|]. split; [nia|]. intros _.
        by rewrite <-Z.negb_odd, Hodd.
    + split; [lia|]. split; [nia|]. intros Heq. exfalso. nia.
Qed.

Lemma binary64_correct (n : Z) : (0 ≤ n)%Z → is_binary64_of n (binary64 n).
Proof.
  intros Hn. unfold is_binary64_of, binary64.
  destruct (Z.leb_spec (Z.log2 n - 52) 0) as [He|He].
  - left. split; [|done].
    destruct (Z.eq_dec n 0%Z) as [->|Hnz]; [done|].
    apply Z.log2_lt_pow2; lia.
  - right. exists (Z.log2 n - 52)%Z, (round_half_even n (2 ^ (Z.log2 n - 52))).
    assert (Hpos : (0 < n)%Z).
    { destruct (Z.eq_dec n 0%Z) as [->|Hnz]; [done|lia]. }
    pose proof (Z.log2_spec n Hpos) as Hspec.
    split; [lia|]. split.
    + replace (52 + (Z.log2 n - 52))%Z with (Z.log2 n) by lia.
      replace (53 + (Z.log2 n - 52))%Z with (Z.succ (Z.log2 n)) by lia. done.
    + split; [|done]. apply round_half_even_nearest; [lia|].
      apply Z.pow_pos_nonneg; lia.
Qed.

Lemma is_digit_not (c x : ascii) : is_digit c = true → is_digit x = false → Ascii.eqb c x = false.
Proof.
  intros Hc Hx. apply Ascii.eqb_neq. intros ->. congruence.
Qed.

Lemma string_of_uint_digits (d : Decimal.uint) : all_digits (NilEmpty.string_of_uint d) = true.
Proof. induction d; simpl; try done. Qed.

Lemma to_uint_not_Nil (n : N) : N.to_uint n ≠ Decimal.Nil.
Proof.
  intros H. pose proof (Unsigned.of_to n) as Hn. rewrite H in Hn. simpl in Hn. subst n.
  discriminate H.
Qed.

Lemma decimal_digits (z : Z) :
  all_digits (decimal z) = true ∧ ∃ c s, decimal z = String c s.
Proof.
  unfold decimal. pose proof (to_uint_not_Nil (Z.to_N z)) as Hnn.
  destruct (N.to_uint (Z.to_N z)) eqn:E; [done|..];
    (split; [apply (string_of_uint_digits (_ _))|simpl; eauto]).
Qed.

Lemma read_decimal_decimal (z : Z) : (0 ≤ z)%Z → read_decimal (decimal z) = Some z.
Proof.
  intros Hz. unfold read_decimal, decimal.
  rewrite NilZero.usu by apply to_uint_not_Nil.
  simpl. by rewrite Unsigned.of_to, Z2N.id.
Qed.

Lemma split_dot_app (i f : string) :
  all_digits i = true → split_dot (i +:+ String "." f) = Some (i, f).
Proof.
  induction i as [|c i IH]; [done|].
  cbn [all_digits]. intros [Hc Hi]%andb_prop. rewrite str_app_cons.
  cbn [split_dot]. rewrite (is_digit_not c ".") by done. by rewrite IH.
Qed.

Lemma two_digits_read (z : Z) :
  (0 ≤ z < 100)%Z →
  String.length (two_digits z) = 2 ∧ read_decimal (two_digits z) = Some z.
Proof.
  intros Hz.
  assert (H : forallb (λ k, (String.length (two_digits (Z.of_nat k)) =? 2)%nat
                            && bool_decide (read_decimal (two_digits (Z.of_nat k))
                                            = Some (Z.of_nat k)))
                      (seq 0 100) = true) by (vm_compute; reflexivity).
  rewrite forallb_forall in H.
  specialize (H (Z.to_nat z)). rewrite Z2Nat.id in H by lia.
  destruct (andb_prop _ _ (H ltac:(apply in_seq; lia))) as [H1 H2].
  apply bool_decide_eq_true in H2. split; [by apply Nat.eqb_eq|done].
Qed.

Lemma hundredths_nonneg (n d : Z) : (0 < d)%Z → (0 ≤ hundredths n d)%Z.
Proof.
  intros Hd. apply (round_half_even_nearest (Z.abs n * 100) d); lia.
Qed.

Lemma read_2f_unsigned (body : string) (c : ascii) (rest : string) :
  body = String c rest → is_digit c = true →
  read_2f body = (λ h, (false, h)) <$> read_fixed2 body.
Proof. intros -> Hc. unfold read_2f. by rewrite (is_digit_not c "-"). Qed.

Lemma read_2f_format_2f (n d : Z) :
  (0 < d)%Z → read_2f (format_2f n d) = Some ((n <? 0)%Z, hundredths n d).
Proof.
  intros Hd. unfold format_2f. cbv zeta.
  pose proof (hundredths_nonneg n d Hd) as Hh.
  set (h := hundredths n d) in *.
  assert (Hq : (0 ≤ h / 100)%Z) by (apply Z.div_pos; lia).
  assert (Hr : (0 ≤ h mod 100 < 100)%Z) by (apply Z.mod_pos_bound; lia).
  destruct (decimal_digits (h / 100)) as [Hdig (c & s & Hcs)].
  destruct (two_digits_read (h mod 100) Hr) as [Hlen Hread].
  assert (Hbody : read_fixed2 (decimal (h / 100) +:+ "." +:+ two_digits (h mod 100))
                  = Some h).
  { unfold read_fixed2.
    change ("." +:+ two_digits (h mod 100)) with (String "." (two_digits (h mod 100))).
    rewrite split_dot_app by done. rewrite Hlen, Hread, read_decimal_decimal by done.
    cbn [Nat.eqb]. f_equal.
    pose proof (Z.div_mod h 100 ltac:(lia)). lia. }
  destruct (n <? 0)%Z.
  - rewrite str_app_cons, str_app_nil. unfold read_2f.
    cbn [Ascii.eqb Bool.eqb]. by rewrite Hbody.
  - rewrite str_app_nil.
    assert (Hc : is_digit c = true).
    { rewrite Hcs in Hdig. by apply andb_prop in Hdig as [? _]. }
    rewrite (read_2f_unsigned _ c (s +:+ "." +:+ two_digits (h mod 100))).
    + by rewrite Hbody.
    + by rewrite Hcs.
    + done.
Qed.

Lemma binary64_nonneg (n : Z) : (0 ≤ n)%Z → (0 ≤ binary64 n)%Z ∧ ((0 < n)%Z → (0 < binary64 n)%Z).
Proof.
  intros Hn. destruct (binary64_correct n Hn) as [[_ ->]|(e & k & He & Hb & (Hk & Hnear & _) & ->)].
  - lia.
  - assert (Hp : (0 < 2 ^ e)%Z) by (apply Z.pow_pos_nonneg; lia).
    assert (H52 : (2 ^ (52 + e) = 2 ^ 52 * 2 ^ e)%Z) by (apply Z.pow_add_r; lia).
    assert (Hk1 : (1 ≤ k)%Z) by nia.
    split; [nia|]. intros _. nia.
Qed.

(** ** Renames over a whole pass *)

Section Renames.

Variable encoder : filesystem → path → path → enc_run.

Lemma renames_follow_success_app (f : path) (rest : list path) (tr1 tr2 : list event) :
  renames_follow_success [f] tr1 → renames_follow_success rest tr2 →
  renames_follow_success (f :: rest) (tr1 ++ tr2).
Proof.
  intros H1 H2 pre x y post Heq.
  apply app_eq_inv in Heq as [(k & -> & Hk)|(k & -> & Hk)].
  - destruct k as [|e k].
    + rewrite app_nil_l in Hk.
      destruct (H2 [] x y post) as (pre' & file & Hin & Hpre & Hx & Hy); [done|].
      by destruct pre'.
    + injection Hk as <- ->.
      destruct (H1 pre x y k) as (pre' & file & Hin & Hpre & Hx & Hy); [done|].
      apply list_elem_of_singleton in Hin as ->.
      exists pre', f. repeat split; try done. by left.
  - destruct (H2 k x y post) as (pre' & file & Hin & -> & Hx & Hy); [done|].
    exists (tr1 ++ pre'), file. repeat split; try done.
    + by right.
    + by rewrite (assoc_L (++)).
Qed.

Lemma process_file_renames (a : args) (t : tally) (file : path) (fs : filesystem) :
  args_commit a = true →
  renames_follow_success [file] (trace (process_file encoder a t file fs)).
Proof.
  intros Hc pre x y post Heq.
  assert (Hin : Rename x y ∈ trace (process_file encoder a t file fs)).
  { rewrite Heq. apply elem_of_app. right. by left. }
  pose proof (process_file_shape encoder a t file fs) as Hshape.
  cbv zeta in Hshape. rewrite Hc in Hshape. cbn [negb] in Hshape.
  destruct Hshape as [[Htr _]|[[Htr _]|(_ & _ & H)]].
  - rewrite Htr in Hin. by apply elem_of_nil in Hin.
  - rewrite Htr in Hin. no_rename Hin.
  - assert (Hin' : Rename x y ∈ trace (transcode_file encoder file
                                         (output_path file) false fs)).
    { destruct H as [[Htr _]|(_ & Htr & _)]; rewrite Htr in Hin; [done|].
      apply elem_of_app in Hin as [?|Hin]; [done|]. no_rename Hin. }
    apply transcode_file_rename in Hin' as (-> & -> & _ & Htr & _).
    exists [], file. split; [by left|]. split; [|done].
    assert (Htr' : ∃ post',
              trace (process_file encoder a t file fs)
              = [Popen file (tmp_path (output_path file)); Exit 0;
                 Rename (tmp_path (output_path file)) (output_path file)] ++ post'
              ∧ ∀ u v, Rename u v ∉ post').
    { destruct H as [[-> _]|(_ & -> & _)]; rewrite Htr.
      - exists []. split; [done|]. intros u v Hn. by apply elem_of_nil in Hn.
      - exists [Unlink file]. split; [done|]. intros u v Hn. no_rename Hn. }
    destruct Htr' as (post' & Htr' & Hno). rewrite Htr' in Heq.
    destruct pre as [|e1 [|e2 [|e3 pre]]]; try discriminate Heq.
    + by injection Heq as <- <- _.
    + injection Heq as _ _ _ Heq.
      destruct (Hno (tmp_path (output_path file)) (output_path file)).
      rewrite Heq. apply elem_of_app. right. by left.
Qed.

Lemma process_all_renames (a : args) (targets : list path) :
  ∀ (t : tally) (fs : filesystem),
  args_commit a = true →
  renames_follow_success targets (trace (process_all encoder a t targets fs)).
Proof.
  induction targets as [|file rest IH]; intros t fs Hc.
  - intros pre x y post Heq. by destruct pre.
  - cbn [process_all]. rewrite bind_eq.
    pose proof (process_file_renames a t file fs Hc) as H1.
    destruct (res (process_file encoder a t file fs)) as [t1|e]; cbn [trace].
    + apply renames_follow_success_app; [done|by apply IH].
    + rewrite <-(app_nil_r (trace _)).
      apply renames_follow_success_app; [done|].
      intros pre x y post Heq. by destruct pre.
Qed.

End Renames.

(** ** Launches and failures of the encoder *)

Lemma launched_app (tr1 tr2 : list event) :
  launched (tr1 ++ tr2) = launched tr1 ++ launched tr2.
Proof. apply omap_app. Qed.



Section EncoderFailures.

Variable encoder : filesystem → path → path → enc_run.

(** The calls of the transcode step: the launch, the return when there is
    one, and at most one more call, the removal of the temporary file or
    its promotion. *)
Lemma transcode_file_trace_cases (src dst : path) (fs : filesystem) :
  ∃ (code : option Z) (tail : list event),
    trace (transcode_file encoder src dst false fs)
    = Popen src (tmp_path dst)
        :: match code with Some c => [Exit c] | None => [] end ++ tail
    ∧ (tail = [] ∨ tail = [Unlink (tmp_path dst)]
       ∨ tail = [Rename (tmp_path dst) dst]).
Proof.
  rewrite transcode_file_live. cbv zeta.
  assert (Hfail : ∀ (code : option Z) (fs' : filesystem),
    ∃ tail,
      trace (after_failure (tmp_path dst)
               (Popen src (tmp_path dst)
                  :: match code with Some c => [Exit c] | None => [] end) fs')
      = Popen src (tmp_path dst)
          :: match code with Some c => [Exit c] | None => [] end ++ tail
      ∧ (tail = [] ∨ tail = [Unlink (tmp_path dst)]
         ∨ tail = [Rename (tmp_path dst) dst])).
  { intros code fs'. unfold after_failure.
    destruct (fs' !! tmp_path dst) as [[d|sz]|]; cbn [trace].
    - exists [Unlink (tmp_path dst)]. split; [by destruct code|auto].
    - exists []. split; [by destruct code; rewrite ?app_nil_r|auto].
    - exists []. split; [by destruct code; rewrite ?app_nil_r|auto]. }
  destruct (encoder fs src (tmp_path dst)) as [|w [|code]].
  - exists None. apply (Hfail None).
  - exists None. apply (Hfail None).
  - exists (Some code). destruct (Z.eqb_spec code 0) as [->|Hc].
    + destruct (res (rename _ _ _)) as [[]|e]; [|apply (Hfail (Some 0%Z))].
      exists [Rename (tmp_path dst) dst]. auto.
    + apply (Hfail (Some code)).
Qed.

Lemma transcode_file_launched (src dst : path) (fs : filesystem) :
  launched (trace (transcode_file encoder src dst false fs)) = [src].
Proof.
  destruct (transcode_file_trace_cases src dst fs)
    as (code & tail & -> & Htail).
  destruct code, Htail as [->|[->| ->]]; reflexivity.
Qed.







End EncoderFailures.

(** * The claims *)

(** C1. In commit mode every rename of a run promotes the temporary file of
    a candidate to its output path and comes right after the encoder
    started for that candidate returned 0; while a candidate is handled,
    its output path changes only through that rename; so when --reprocess
    sends a candidate with an existing artifact to the encoder and the
    encoder fails, the artifact is what it was. *)
Theorem output_only_by_rename_after_success
    (scandir : filesystem → list path)
    (encoder : filesystem → path → path → enc_run)
    (a : args) (fs0 : filesystem) (t : tally) (file : path) (fs : filesystem) :
  let dst := output_path file in
  let tmp := tmp_path dst in
  args_commit a = true →
  let o := process_file encoder a t file fs in
  renames_follow_success
    (find_target_files scandir (args_start a) (args_ext a) (args_recursive a) fs0)
    (trace (main scandir encoder a fs0))
  ∧ (∀ x y, Rename x y ∈ trace o →
       x = tmp ∧ y = dst
       ∧ (∃ w, encoder fs file tmp = Ran w (Exited 0))
       ∧ ∃ post, trace o = [Popen file tmp; Exit 0; Rename tmp dst] ++ post)
  ∧ (fs_after o !! dst ≠ fs !! dst → Rename tmp dst ∈ trace o)
  ∧ (args_reprocess a = true →
     ∀ n, fs !! dst = Some n →
          (∀ w, encoder fs file tmp ≠ Ran w (Exited 0)) →
          fs_after o !! dst = Some n).
Proof.
  intros dst tmp Hc o.
  split; [by apply process_all_renames|].
  pose proof (process_file_shape encoder a t file fs) as Hshape.
  cbv zeta in Hshape. fold o in Hshape. rewrite Hc in Hshape.
  cbn [negb] in Hshape. fold dst in Hshape.
  set (step := transcode_file encoder file dst false fs) in *.
  split; [|split].
  - intros x y Hin.
    destruct Hshape as [[Htr _]|[[Htr _]|(_ & _ & H)]].
    + rewrite Htr in Hin. by apply elem_of_nil in Hin.
    + rewrite Htr in Hin. no_rename Hin.
    + assert (Hin' : Rename x y ∈ trace step).
      { destruct H as [[Htr _]|(_ & Htr & _)]; rewrite Htr in Hin; [done|].
        apply elem_of_app in Hin as [?|Hin]; [done|]. no_rename Hin. }
      apply transcode_file_rename in Hin' as (-> & -> & _ & Htr & w & Hw).
      fold step in Htr. fold tmp in Htr, Hw.
      split; [done|]. split; [done|]. split; [by exists w|].
      destruct H as [[-> _]|(_ & -> & _)]; rewrite Htr.
      * by exists [].
      * by exists [Unlink file].
  - intros Hch.
    destruct Hshape as [[_ Hfs]|[[_ Hfs]|(_ & _ & H)]].
    + by rewrite Hfs in Hch.
    + rewrite Hfs in Hch. destruct Hch.
      apply lookup_delete_ne, not_eq_sym, output_ne_file.
    + destruct (res step) as [[]|e] eqn:Er.
      * apply transcode_file_true in Er as (w & _ & _ & _ & Htr).
        fold step in Htr. fold tmp in Htr.
        destruct H as [[-> _]|(_ & -> & _)]; rewrite Htr;
          rewrite ?elem_of_app; [|left]; do 2 right; left.
      * destruct H as [[_ Hfs]|[? _]]; [|done].
        rewrite Hfs in Hch. destruct Hch.
        apply transcode_file_dst_kept; [apply tmp_ne_output|].
        fold step. by rewrite Er.
      * destruct H as [[_ Hfs]|[? _]]; [|done].
        rewrite Hfs in Hch. destruct Hch.
        apply transcode_file_dst_kept; [apply tmp_ne_output|].
        fold step. by rewrite Er.
  - intros _ n Hn Hfail. rewrite <-Hn.
    by apply process_file_dst_kept.
Qed.

Lemma output_only_by_rename_after_success_witness :
  fs_after (process_file enc_exit3 (Args ["v"] "mkv" false true true true) tally0
                         (["v"], "b.mkv") fs_b)
    !! ((["v"], "b-converted.mp4") : path)
  = Some (File [Byte.x07]).
Proof.
  refine (proj2 (proj2 (proj2 (output_only_by_rename_after_success entries
            enc_exit3 (Args ["v"] "mkv" false true true true) fs_b tally0
            (["v"], "b.mkv") fs_b eq_refl))) eq_refl (File [Byte.x07]) _ _).
  - vm_compute. reflexivity.
  - intros w. vm_compute. discriminate.
Defined.

(** C2. The code misses the claim where the clean-up of the temporary
    path cannot be done.  Here [v/a.mkv] is a regular file, a directory
    sits at its temporary path [v/a-converted.tmp.mp4] and the encoder
    returns 3: the clean-up's [unlink] raises, the handler runs the same
    clean-up, which raises again, and the exception leaves the transcode
    step.  No failure result is returned, the entry at the temporary path is
    still there, the run ends with exit status 1 and the candidate is in no
    collection.  The source is not deleted. *)
Theorem failed_transcode_raises_over_directory :
  let file : path := (["v"], "a.mkv") in
  let tmp := tmp_path (output_path file) in
  let step := transcode_file enc_exit3 file (output_path file) false fs_dir_at_tmp in
  let run := main entries enc_exit3 (Args ["v"] "mkv" false false true true)
                  fs_dir_at_tmp in
  find_target_files entries ["v"] "mkv" false fs_dir_at_tmp = [file]
  ∧ enc_exit3 fs_dir_at_tmp file tmp = Ran (Written [Byte.x09]) (Exited 3)
  ∧ res step = Raise IsADirectoryError
  ∧ trace step = [Popen file tmp; Exit 3]
  ∧ fs_after step !! tmp = Some (Dir 4096)
  ∧ res run = Raise IsADirectoryError
  ∧ exit_code run = 1%Z
  ∧ fs_after run !! file = fs_dir_at_tmp !! file.
Proof. repeat split; vm_compute; reflexivity. Qed.

(** C3. With commit mode off, a run changes nothing, whether it returns
    or is ended by an exception: the file system it leaves is the one it
    started from and it makes no system call at all (no encoder launch, no
    rename, no unlink); and when it returns, nothing is recorded as deleted
    even when --delete is given. *)
Theorem dry_run_leaves_filesystem_untouched
    (scandir : filesystem → list path)
    (encoder : filesystem → path → path → enc_run) (a : args) (fs : filesystem) :
  args_commit a = false →
  fs_after (main scandir encoder a fs) = fs
  ∧ trace (main scandir encoder a fs) = []
  ∧ ∀ t, res (main scandir encoder a fs) = Ok t → deleted t = [].
Proof.
  intros Hc. destruct (main_dry encoder scandir a fs Hc) as (Hfs & Htr & Ht).
  split; [done|]. split; [done|]. intros t Hres. by destruct (Ht t Hres).
Qed.

Lemma dry_run_leaves_filesystem_untouched_witness :
  let a := Args ["v"] "mkv" false false true false in
  fs_after (main entries enc_ok a fs_b) = fs_b
  ∧ trace (main entries enc_ok a fs_b) = []
  ∧ ∀ t, res (main entries enc_ok a fs_b) = Ok t → deleted t = [].
Proof.
  apply (dry_run_leaves_filesystem_untouched entries enc_ok
           (Args ["v"] "mkv" false false true false) fs_b).
  reflexivity.
Defined.

(** C4. When a run returns, every scanned candidate is in exactly one of
    processed, skipped and failed (the three together are the scanned list
    up to order), and whatever is in deleted is also in processed or in
    skipped. *)
Theorem outcome_collections_partition
    (scandir : filesystem → list path)
    (encoder : filesystem → path → path → enc_run) (a : args) (fs : filesystem)
    (t : tally) :
  lists_entries scandir →
  res (main scandir encoder a fs) = Ok t →
  let targets :=
    find_target_files scandir (args_start a) (args_ext a) (args_recursive a) fs in
  (processed t).*1 ++ skipped t ++ failed t ≡ₚ targets
  ∧ (∀ f, f ∈ targets →
       (f ∈ (processed t).*1 ∧ (f ∉ skipped t) ∧ (f ∉ failed t))
       ∨ ((f ∉ (processed t).*1) ∧ f ∈ skipped t ∧ (f ∉ failed t))
       ∨ ((f ∉ (processed t).*1) ∧ (f ∉ skipped t) ∧ f ∈ failed t))
  ∧ (∀ f, f ∈ deleted t → f ∈ (processed t).*1 ∨ f ∈ skipped t).
Proof.
  intros Hscan Hres targets. unfold main in Hres. fold targets in Hres.
  apply process_all_classified in Hres as (Hperm & _ & _ & Hdel).
  unfold classified in Hperm. simpl in Hperm.
  assert (Hnd : NoDup ((processed t).*1 ++ skipped t ++ failed t)).
  { rewrite Hperm. by apply find_target_files_NoDup. }
  split; [done|]. split.
  - intros f Hf. rewrite <-Hperm in Hf.
    apply NoDup_app in Hnd as (_ & Hps & Hnd).
    apply NoDup_app in Hnd as (_ & Hsf & _).
    assert (Hps' : f ∈ (processed t).*1 → (f ∉ skipped t) ∧ (f ∉ failed t)).
    { intros Hp. specialize (Hps f Hp). rewrite elem_of_app in Hps. tauto. }
    rewrite !elem_of_app in Hf.
    destruct Hf as [Hf|[Hf|Hf]].
    + left. split; [done|]. by apply Hps'.
    + right; left. split; [|split; [done|by apply Hsf]].
      intros Hp. by apply Hps' in Hp as [? _].
    + right; right. split; [|split; [|done]].
      * intros Hp. by apply Hps' in Hp as [_ ?].
      * intros Hs. by apply Hsf in Hs.
  - intros f Hf. destruct (Hdel f Hf) as [Hd|?]; [|done].
    by apply elem_of_nil in Hd.
Qed.

Lemma outcome_collections_partition_witness :
  let t := Tally [((["v"], "b.mkv"), (["v"], "b-converted.mp4"))]
                 [(["v"], "a.mkv")]
                 [(["v"], "a.mkv"); (["v"], "b.mkv")]
                 [(["v"], "c.mkv")] 2 in
  let targets := find_target_files entries ["v"] "mkv" false fs_mix in
  (processed t).*1 ++ skipped t ++ failed t ≡ₚ targets
  ∧ (∀ f, f ∈ targets →
       (f ∈ (processed t).*1 ∧ (f ∉ skipped t) ∧ (f ∉ failed t))
       ∨ ((f ∉ (processed t).*1) ∧ f ∈ skipped t ∧ (f ∉ failed t))
       ∨ ((f ∉ (processed t).*1) ∧ (f ∉ skipped t) ∧ f ∈ failed t))
  ∧ (∀ f, f ∈ deleted t → f ∈ (processed t).*1 ∨ f ∈ skipped t).
Proof.
  apply (outcome_collections_partition entries enc_mixed
           (Args ["v"] "mkv" false false true true) fs_mix
           (Tally [((["v"], "b.mkv"), (["v"], "b-converted.mp4"))]
                  [(["v"], "a.mkv")]
                  [(["v"], "a.mkv"); (["v"], "b.mkv")]
                  [(["v"], "c.mkv")] 2)).
  - exact entries_lists_entries.
  - vm_compute. reflexivity.
Defined.

(** C5. A candidate whose output path [<stem>-converted.mp4] already holds
    something is, without --reprocess, recorded as skipped and the encoder
    is not started for it; with both --commit and --delete the source file
    is removed as well and the candidate is also recorded as deleted. *)
Theorem existing_output_is_skipped
    (encoder : filesystem → path → path → enc_run)
    (a : args) (t : tally) (file : path) (fs : filesystem) :
  is_Some (fs !! output_path file) →
  args_reprocess a = false →
  let o := process_file encoder a t file fs in
  (∀ src tmp, Popen src tmp ∉ trace o)
  ∧ (args_commit a && args_delete a = false →
       o = Outcome (Ok (add_skipped t file)) fs [])
  ∧ (args_commit a = true → args_delete a = true →
       ∀ data, fs !! file = Some (File data) →
         o = Outcome (Ok (add_deleted (add_skipped t file) file))
                     (delete file fs) [Unlink file]).
Proof.
  intros Hex Hr o. subst o.
  rewrite process_file_eq. cbv zeta. rewrite is_skip_true by done.
  unfold unlink_then. repeat split.
  - intros src tmp.
    destruct (_ && _); [|by intros H%elem_of_nil].
    destruct (fs !! file) as [[d|sz]|]; simpl; [|by intros H%elem_of_nil..].
    intros H. apply elem_of_cons in H as [H|H]; [discriminate H|].
    by apply elem_of_nil in H.
  - by intros ->.
  - intros -> -> data ->. done.
Qed.

Lemma existing_output_is_skipped_witness :
  process_file enc_ok (Args ["v"] "mkv" false false true true) tally0
               (["v"], "b.mkv") fs_b
  = Outcome (Ok (Tally [] [(["v"], "b.mkv")] [(["v"], "b.mkv")] [] 0))
            (delete (["v"], "b.mkv") fs_b) [Unlink (["v"], "b.mkv")].
Proof.
  refine (proj2 (proj2 (existing_output_is_skipped enc_ok
            (Args ["v"] "mkv" false false true true) tally0 (["v"], "b.mkv") fs_b
            _ _)) eq_refl eq_refl [Byte.x00; Byte.x01; Byte.x02] _).
  - vm_compute. eauto.
  - reflexivity.
  - vm_compute. reflexivity.
Defined.

(** C6. In commit mode, when the run returns, the processed collection holds
    the candidates that were sent to the encoder and transcoded
    successfully, and the total is the exact integer sum over them of the
    size of the source before transcoding minus the size of the output
    after it, whatever the sign of each term.  The last line prints that
    total divided by 1048576 as a float: read back, the printed text has
    the sign of the total and, in hundredths, the number nearest (ties to
    even) to the float quotient, which is the binary64 value of the total
    over 1048576; the division raises when that value is too large. *)
Theorem space_saved_is_exact_sum
    (scandir : filesystem → list path)
    (encoder : filesystem → path → path → enc_run) (a : args) (fs : filesystem)
    (t : tally) :
  args_commit a = true →
  res (main scandir encoder a fs) = Ok t →
  let targets :=
    find_target_files scandir (args_start a) (args_ext a) (args_recursive a) fs in
  let n := total_saved t in
  processed t = spec_processed encoder a targets fs
  ∧ n = spec_total_saved encoder a targets fs
  ∧ ∃ m, is_binary64_of (Z.abs n) m
      ∧ ((m < 2 ^ 1044)%Z →
         ∃ s h, report a t = SpaceSaved s
                ∧ read_2f s = Some ((n <? 0)%Z, h)
                ∧ nearest_half_even (100 * m) 1048576 h)
      ∧ ((2 ^ 1044 ≤ m)%Z → report a t = DivisionOverflow).
Proof.
  intros Hc Hres targets n. unfold main in Hres. fold targets in Hres.
  apply process_all_saved in Hres as [Hp Hs]; [|done].
  split; [done|]. split; [by subst n; rewrite Hs|].
  exists (binary64 (Z.abs n)).
  assert (Hn : (0 ≤ Z.abs n)%Z) by lia.
  destruct (binary64_nonneg (Z.abs n) Hn) as [Hm Hmpos].
  split; [by apply binary64_correct|].
  unfold report, true_divide_mib. rewrite Hc. fold n.
  set (m := binary64 (Z.abs n)) in *.
  change (1024 ^ 2)%Z with 1048576%Z.
  destruct (Z.leb_spec (2 ^ 1044) m) as [Hbig|Hsmall]; split; try done; try lia.
  intros _. eexists _, _. split; [done|].
  rewrite read_2f_format_2f by done.
  assert (Habs : Z.abs (Z.sgn n * m) = m).
  { destruct (Z.sgn_spec n) as [[? ->]|[[Hz ->]|[? ->]]]; [lia| |lia].
    subst m. by rewrite <-Hz. }
  assert (Hsign : (Z.sgn n * m <? 0)%Z = (n <? 0)%Z).
  { destruct (Z.ltb_spec n 0) as [Hneg|Hpos].
    - apply Z.ltb_lt. assert (0 < m)%Z by (apply Hmpos; lia).
      destruct (Z.sgn_spec n) as [[? ->]|[[? ->]|[? ->]]]; lia.
    - apply Z.ltb_ge.
      destruct (Z.sgn_spec n) as [[? ->]|[[? ->]|[? ->]]]; lia. }
  rewrite Hsign. split; [done|].
  unfold hundredths. rewrite Habs, (Z.mul_comm m 100).
  apply round_half_even_nearest; lia.
Qed.

Lemma space_saved_is_exact_sum_witness :
  let a := Args ["v"] "mkv" false false false true in
  let t := Tally [((["v"], "a.mkv"), (["v"], "a-converted.mp4"))] [] [] [] (-2) in
  processed t = spec_processed enc_grow a [(["v"], "a.mkv")] fs_a
  ∧ total_saved t = spec_total_saved enc_grow a [(["v"], "a.mkv")] fs_a
  ∧ ∃ m, is_binary64_of (Z.abs (total_saved t)) m
      ∧ ((m < 2 ^ 1044)%Z →
         ∃ s h, report a t = SpaceSaved s
                ∧ read_2f s = Some ((total_saved t <? 0)%Z, h)
                ∧ nearest_half_even (100 * m) 1048576 h)
      ∧ ((2 ^ 1044 ≤ m)%Z → report a t = DivisionOverflow).
Proof.
  apply (space_saved_is_exact_sum entries enc_grow
           (Args ["v"] "mkv" false false false true) fs_a
           (Tally [((["v"], "a.mkv"), (["v"], "a-converted.mp4"))] [] [] [] (-2))).
  - reflexivity.
  - vm_compute. reflexivity.
Defined.

(** What is printed for a total of two bytes lost, and for totals beyond 53
    bits, where the float is not the exact quotient: [2^67 + 2^14] lies half
    way between two floats and goes to [2^67]. *)
Example report_samples :
  report (Args ["v"] "mkv" false false false true) (Tally [] [] [] [] (-2))
  = SpaceSaved "-0.00"
  ∧ report (Args ["v"] "mkv" false false false true)
           (Tally [] [] [] [] (2 ^ 67 + 2 ^ 14))
    = SpaceSaved "140737488355328.00"
  ∧ report (Args ["v"] "mkv" false false false true)
           (Tally [] [] [] [] (2 ^ 67 + 2 ^ 14 + 1))
    = SpaceSaved "140737488355328.03"
  ∧ report (Args ["v"] "mkv" false false false true) (Tally [] [] [] [] (2 ^ 1044))
    = DivisionOverflow.
Proof. repeat split; vm_compute; reflexivity. Qed.

(** The example of the specification: 100 MiB in, 60 MiB out. *)
Example report_40_mib :
  report (Args ["v"] "mkv" false false false true)
         (Tally [] [] [] [] (100 * 1048576 - 60 * 1048576))
  = SpaceSaved "40.00".
Proof. vm_compute. reflexivity. Qed.







(** C9. In a dry run the transcode step answers success whatever the
    candidate and the file system, so when the run reaches its end the
    failed collection is empty and every candidate that is not skipped is
    processed. *)
Theorem dry_run_never_fails
    (scandir : filesystem → list path)
    (encoder : filesystem → path → path → enc_run) (a : args) (fs : filesystem)
    (t : tally) :
  args_commit a = false →
  res (main scandir encoder a fs) = Ok t →
  (∀ src dst fs', res (transcode_file encoder src dst true fs') = Ok true)
  ∧ failed t = []
  ∧ ∀ f, f ∈ find_target_files scandir (args_start a) (args_ext a)
                               (args_recursive a) fs →
         f ∉ skipped t → f ∈ (processed t).*1.
Proof.
  intros Hc Hres. split; [done|].
  destruct (main_dry encoder scandir a fs Hc) as (_ & _ & Ht).
  destruct (Ht t Hres) as [Hf _]. split; [done|].
  intros f Hin Hns.
  apply process_all_classified in Hres as (Hperm & _).
  assert (Hc' : f ∈ classified t) by (rewrite Hperm; apply elem_of_app; by right).
  unfold classified in Hc'. rewrite Hf, app_nil_r, elem_of_app in Hc'.
  by destruct Hc'.
Qed.

Lemma dry_run_never_fails_witness :
  let a := Args ["v"] "mkv" false true true false in
  let t := Tally [((["v"], "b.mkv"), (["v"], "b-converted.mp4"))] [] [] [] 0 in
  (∀ src dst fs', res (transcode_file enc_exit3 src dst true fs') = Ok true)
  ∧ failed t = []
  ∧ ∀ f, f ∈ find_target_files entries (args_start a) (args_ext a)
                               (args_recursive a) fs_b →
         f ∉ skipped t → f ∈ (processed t).*1.
Proof.
  apply (dry_run_never_fails entries enc_exit3
           (Args ["v"] "mkv" false true true false) fs_b
           (Tally [((["v"], "b.mkv"), (["v"], "b-converted.mp4"))] [] [] [] 0)).
  - reflexivity.
  - vm_compute. reflexivity.
Defined.

(** C10. For an extension that holds no pattern character, the scan keeps
    every entry below the root whose name ends in [.<ext>] and looks at
    nothing else, so earlier outputs are not set aside: with --ext mp4 an
    existing [x-converted.mp4] is a candidate, and the output path derived
    for it is [x-converted-converted.mp4]. *)
Theorem scanner_keeps_converted_outputs
    (scandir : filesystem → list path)
    (fs : filesystem) (start : dirpath) (ext : string) (recursive : bool)
    (p : path) (x : string) :
  lists_entries scandir →
  is_dir fs start = true →
  plain_ext ext = true →
  (p ∈ find_target_files scandir start ext recursive fs ↔
     is_Some (fs !! p)
     ∧ ends_with ("." +:+ ext) (name p) = true
     ∧ (if recursive then is_Some (strip_prefix start (parent p))
        else parent p = start))
  ∧ (is_Some (fs !! ((start, x +:+ "-converted.mp4") : path)) →
     (start, x +:+ "-converted.mp4") ∈ find_target_files scandir start "mp4" recursive fs
     ∧ output_path (start, x +:+ "-converted.mp4")
       = (start, x +:+ "-converted-converted.mp4")).
Proof.
  intros Hs Hd _. split.
  - rewrite find_target_files_spec by done. tauto.
  - intros Hex. split; [|apply output_path_converted].
    apply find_target_files_spec; [done|].
    split; [done|]. split; [done|]. split.
    + unfold name. simpl.
      replace (x +:+ "-converted.mp4") with ((x +:+ "-converted") +:+ ".mp4")
        by apply str_app_assoc.
      apply ends_with_app.
    + unfold parent. simpl. destruct recursive; [|done].
      rewrite strip_prefix_refl. by eexists.
Qed.

Lemma scanner_keeps_converted_outputs_witness :
  ((["v"], "x-converted.mp4") : path) ∈ find_target_files entries ["v"] "mp4" false fs_mp4
  ∧ output_path (["v"], "x-converted.mp4") = (["v"], "x-converted-converted.mp4").
Proof.
  refine (proj2 (scanner_keeps_converted_outputs entries fs_mp4 ["v"] "mp4" false
                   (["v"], "x-converted.mp4") "x" entries_lists_entries _ _) _).
  - vm_compute. reflexivity.
  - reflexivity.
  - vm_compute. eauto.
Defined.

(** * Further properties of the script *)

(** ** Derived paths *)

Lemma stem_dot_ext (s ext : string) :
  s ≠ "" → ext ≠ "" → rfind "." ext = None →
  stem (s +:+ "." +:+ ext) = s.
Proof.
  intros Hs He Hnd. unfold stem. rewrite rfind_app.
  change ("." +:+ ext) with (String "." ext). cbn [rfind]. rewrite Hnd.
  cbn [Ascii.eqb Bool.eqb]. rewrite Nat.add_0_r, str_length_app.
  destruct s as [|a s]; [done|]. destruct ext as [|b ext]; [done|].
  cbn [String.length].
  replace (0 <? S _) with true by (symmetry; apply Nat.ltb_lt; lia).
  replace (S _ + 1 <? _) with true by (symmetry; apply Nat.ltb_lt; lia).
  cbn [andb]. apply (str_take_app (String a s)).
Qed.

Lemma ends_with_other (pat tail y : string) :
  String.length pat = String.length tail → pat ≠ tail →
  ends_with pat (y +:+ tail) = false.
Proof.
  intros Hlen Hne. unfold ends_with. rewrite str_length_app, Hlen.
  replace (_ + _ - _) with (String.length y) by lia.
  rewrite str_drop_app. apply String.eqb_neq. congruence.
Qed.

(** No output path is a temporary path, of the same candidate or another. *)
Lemma output_ne_tmp (f g : path) : output_path f ≠ tmp_path (output_path g).
Proof.
  rewrite tmp_path_output. unfold output_path, with_name, parent, name.
  intros [= _ H].
  assert (H1 : ends_with "d.mp4" (stem f.2 +:+ "-converted.mp4") = true).
  { replace (stem f.2 +:+ "-converted.mp4")
      with ((stem f.2 +:+ "-converte") +:+ "d.mp4") by apply str_app_assoc.
    apply ends_with_app. }
  rewrite H in H1.
  replace (stem g.2 +:+ "-converted.tmp.mp4")
    with ((stem g.2 +:+ "-converted.tm") +:+ "p.mp4") in H1
    by apply str_app_assoc.
  by rewrite ends_with_other in H1.
Qed.

(** X1. The source, the output path and the temporary path of a candidate
    lie in the same directory and are three different paths. *)
Theorem candidate_paths_distinct (file : path) :
  let dst := output_path file in
  let tmp := tmp_path dst in
  parent dst = parent file ∧ parent tmp = parent file
  ∧ dst ≠ file ∧ tmp ≠ file ∧ tmp ≠ dst.
Proof.
  cbv zeta. rewrite tmp_path_output. repeat split.
  - apply output_ne_file.
  - rewrite <-tmp_path_output. apply tmp_ne_file.
  - rewrite <-tmp_path_output. apply tmp_ne_output.
Qed.

(** X2. Two different candidates of one directory named [s1.<ext>] and
    [s2.<ext>], with [s1], [s2] and [ext] not empty and no dot in [ext],
    never get the same output path. *)
Theorem output_path_injective (d : dirpath) (s1 s2 ext : string) :
  s1 ≠ "" → s2 ≠ "" → ext ≠ "" → rfind "." ext = None →
  s1 ≠ s2 →
  output_path (d, s1 +:+ "." +:+ ext) ≠ output_path (d, s2 +:+ "." +:+ ext).
Proof.
  intros H1 H2 He Hnd Hne. unfold output_path, with_name, name. cbn [fst snd].
  rewrite !stem_dot_ext by done. intros [= H]. apply Hne.
  assert (Hlen : String.length s1 = String.length s2).
  { apply (f_equal String.length) in H. rewrite !str_length_app in H. lia. }
  rewrite <-(str_take_app s1 "-converted.mp4"), H, Hlen.
  apply str_take_app.
Qed.

Lemma output_path_injective_witness :
  output_path (["v"], "a.b.mkv") ≠ output_path (["v"], "a.mkv").
Proof.
  apply (output_path_injective ["v"] "a.b" "a" "mkv"); done.
Defined.

(** X3. The output path of a candidate is never the temporary path of a
    candidate, and the temporary path is the stem followed by
    [-converted.tmp.mp4] whatever dots the stem holds. *)
Theorem output_and_temporary_paths_apart (f g : path) :
  output_path f ≠ tmp_path (output_path g)
  ∧ tmp_path (output_path g) = (parent g, stem (name g) +:+ "-converted.tmp.mp4").
Proof. split; [apply output_ne_tmp|apply tmp_path_output]. Qed.

(** ** The temporary path differs from the path it is derived from *)

Lemma rfind_drop c (s : string) i :
  rfind c s = Some i → rfind c (str_drop i s) = Some 0.
Proof.
  revert i. induction s as [|a s IH]; intros i; cbn [rfind]; [done|].
  destruct (rfind c s) as [j|] eqn:Hj.
  - intros [= <-]. cbn [str_drop]. by apply IH.
  - destruct (Ascii.eqb a c) eqn:Ha; [|done].
    intros [= <-]. cbn [str_drop rfind]. by rewrite Hj, Ha.
Qed.

Lemma str_drop_length n (s : string) :
  n ≤ String.length s → String.length (str_drop n s) = String.length s - n.
Proof.
  revert s. induction n as [|n IH]; intros [|a s]; cbn [str_drop String.length];
    try lia.
  intros H. apply IH. lia.
Qed.

Lemma name_with_suffix_stem (n sfx : string) :
  name_with_suffix n sfx = stem n +:+ sfx.
Proof.
  unfold name_with_suffix, stem, suffix.
  destruct (rfind "." n) as [i|]; [|done].
  destruct (0 <? i) eqn:H0; [|done]. destruct (i + 1 <? String.length n) eqn:H1;
    [|done]. cbn [andb].
  apply Nat.ltb_lt in H1.
  assert (Hlen : String.length (str_drop i n) = String.length n - i)
    by (apply str_drop_length; lia).
  destruct (str_drop i n) as [|a r] eqn:Hd.
  - cbn [String.length] in Hlen. lia.
  - rewrite Hlen. by replace (String.length n - (String.length n - i)) with i by lia.
Qed.

Lemma tmp_ne_dst (dst : path) : tmp_path dst ≠ dst.
Proof.
  destruct dst as [d n]. unfold tmp_path, with_suffix. cbn [fst snd].
  rewrite name_with_suffix_stem. intros [= H].
  rewrite <-(stem_suffix n) in H at 2. apply str_app_inv_head in H.
  unfold suffix in H. destruct (rfind "." n) as [i|] eqn:Hi; [|done].
  destruct (_ && _); [|done].
  apply rfind_drop in Hi. by rewrite <-H in Hi.
Qed.

(** ** The transcode step: success, failed promotion, discipline *)

Section TranscodeMore.

Variable encoder : filesystem → path → path → enc_run.

Lemma transcode_file_promoted (src dst : path) (fs : filesystem)
    (w : tmp_write) (data : list Byte.byte) :
  encoder fs src (tmp_path dst) = Ran w (Exited 0) →
  apply_write fs (tmp_path dst) w !! tmp_path dst = Some (File data) →
  (∀ sz, fs !! dst ≠ Some (Dir sz)) →
  transcode_file encoder src dst false fs
  = Outcome (Ok true)
            (<[dst := File data]> (delete (tmp_path dst)
                                      (apply_write fs (tmp_path dst) w)))
            [Popen src (tmp_path dst); Exit 0; Rename (tmp_path dst) dst].
Proof.
  intros Henc Htmp Hdst. rewrite transcode_file_live. cbv zeta. rewrite Henc.
  cbn [Z.eqb]. rewrite (rename_file _ _ _ _ Htmp).
  rewrite apply_write_ne by apply not_eq_sym, tmp_ne_dst.
  destruct (fs !! dst) as [[d|sz]|] eqn:E; try done.
  by destruct (Hdst sz).
Qed.

End TranscodeMore.

(** X4. When the encoder returns 0 having written its output and no
    directory is in the way, the transcode step returns success, the output
    path holds exactly the bytes the encoder wrote, nothing is left at the
    temporary path, every other path is untouched, and the calls made are
    the launch, the return and the rename. *)
Theorem transcode_success_promotes_output
    (encoder : filesystem → path → path → enc_run)
    (src dst : path) (fs : filesystem) (data : list Byte.byte) :
  encoder fs src (tmp_path dst) = Ran (Written data) (Exited 0) →
  tmp_free fs (tmp_path dst) →
  (∀ sz, fs !! dst ≠ Some (Dir sz)) →
  let o := transcode_file encoder src dst false fs in
  res o = Ok true
  ∧ fs_after o !! dst = Some (File data)
  ∧ fs_after o !! tmp_path dst = None
  ∧ (∀ p, p ≠ dst → p ≠ tmp_path dst → fs_after o !! p = fs !! p)
  ∧ trace o = [Popen src (tmp_path dst); Exit 0; Rename (tmp_path dst) dst].
Proof.
  intros Henc Hfree Hdst o.
  assert (Htmp : apply_write fs (tmp_path dst) (Written data) !! tmp_path dst
                 = Some (File data)).
  { unfold apply_write. destruct (fs !! tmp_path dst) as [[d|sz]|] eqn:E;
      try by rewrite lookup_insert_eq.
    by destruct (Hfree sz). }
  subst o. rewrite (transcode_file_promoted encoder src dst fs _ data Henc Htmp Hdst).
  cbn [res fs_after trace]. repeat split.
  - by rewrite lookup_insert_eq.
  - rewrite lookup_insert_ne by apply not_eq_sym, tmp_ne_dst.
    by rewrite lookup_delete_eq.
  - intros p Hd Ht.
    by rewrite lookup_insert_ne, lookup_delete_ne, apply_write_ne.
Qed.

Lemma transcode_success_promotes_output_witness :
  let o := transcode_file enc_ok (["v"], "a.mkv") (["v"], "a-converted.mp4")
                          false fs_a in
  res o = Ok true
  ∧ fs_after o !! ((["v"], "a-converted.mp4") : path)
    = Some (File [Byte.x09; Byte.x09])
  ∧ fs_after o !! tmp_path (["v"], "a-converted.mp4") = None
  ∧ (∀ p, p ≠ (["v"], "a-converted.mp4") → p ≠ tmp_path (["v"], "a-converted.mp4") →
       fs_after o !! p = fs_a !! p)
  ∧ trace o = [Popen (["v"], "a.mkv") (tmp_path (["v"], "a-converted.mp4")); Exit 0;
               Rename (tmp_path (["v"], "a-converted.mp4")) (["v"], "a-converted.mp4")].
Proof.
  apply (transcode_success_promotes_output enc_ok (["v"], "a.mkv")
           (["v"], "a-converted.mp4") fs_a [Byte.x09; Byte.x09]).
  - reflexivity.
  - intros sz. vm_compute. discriminate.
  - intros sz. vm_compute. discriminate.
Defined.

(** X5. A return code 0 is not enough: when the encoder returns 0 and has
    left nothing at the temporary path, or has left a file there while a
    directory sits at the output path, the rename fails: the transcode step
    does not return success, nothing is renamed, the output path is what it
    was and nothing stays at the temporary path. *)
Theorem transcode_failed_promotion
    (encoder : filesystem → path → path → enc_run)
    (src dst : path) (fs : filesystem) (w : tmp_write) :
  encoder fs src (tmp_path dst) = Ran w (Exited 0) →
  apply_write fs (tmp_path dst) w !! tmp_path dst = None
    ∨ ((∃ d, apply_write fs (tmp_path dst) w !! tmp_path dst = Some (File d))
       ∧ ∃ sz, fs !! dst = Some (Dir sz)) →
  let o := transcode_file encoder src dst false fs in
  res o ≠ Ok true
  ∧ fs_after o !! dst = fs !! dst
  ∧ fs_after o !! tmp_path dst = None
  ∧ (∀ x y, Rename x y ∉ trace o).
Proof.
  intros Henc Hcase o.
  assert (Ho : o = after_failure (tmp_path dst)
                     [Popen src (tmp_path dst); Exit 0]
                     (apply_write fs (tmp_path dst) w)).
  { subst o. rewrite transcode_file_live. cbv zeta. rewrite Henc. cbn [Z.eqb].
    destruct Hcase as [Hnone|[[d Hd] [sz Hdir]]].
    - by rewrite rename_missing.
    - rewrite (rename_file _ _ _ _ Hd).
      rewrite apply_write_ne by apply not_eq_sym, tmp_ne_dst.
      by rewrite Hdir. }
  rewrite Ho. split; [apply after_failure_not_true|]. split; [|split].
  - rewrite after_failure_ne by apply not_eq_sym, tmp_ne_dst.
    apply apply_write_ne, not_eq_sym, tmp_ne_dst.
  - unfold after_failure.
    destruct Hcase as [Hnone|[[d Hd] _]].
    + by rewrite Hnone.
    + rewrite Hd. cbn [fs_after]. apply lookup_delete_eq.
  - intros x y [H|H]%after_failure_trace; [no_rename H|done].
Qed.

Lemma transcode_failed_promotion_witness :
  let o := transcode_file enc_silent (["v"], "b.mkv") (["v"], "b-converted.mp4")
                          false fs_b in
  res o ≠ Ok true
  ∧ fs_after o !! ((["v"], "b-converted.mp4") : path)
    = fs_b !! ((["v"], "b-converted.mp4") : path)
  ∧ fs_after o !! tmp_path (["v"], "b-converted.mp4") = None
  ∧ (∀ x y, Rename x y ∉ trace o).
Proof.
  apply (transcode_failed_promotion enc_silent (["v"], "b.mkv")
           (["v"], "b-converted.mp4") fs_b Untouched).
  - reflexivity.
  - left. vm_compute. reflexivity.
Defined.



Section TranscodeDiscipline.

Variable encoder : filesystem → path → path → enc_run.

(** With no directory at the temporary path, the transcode step leaves
    nothing there and removes no existing output. *)
Lemma transcode_file_tmp_gone (src dst : path) (fs : filesystem) :
  tmp_free fs (tmp_path dst) →
  let o := transcode_file encoder src dst false fs in
  fs_after o !! tmp_path dst = None
  ∧ (is_Some (fs !! dst) → is_Some (fs_after o !! dst)).
Proof.
  intros Hfree o. subst o. rewrite transcode_file_live. cbv zeta.
  assert (Hfail : ∀ tr w,
    let o := after_failure (tmp_path dst) tr (apply_write fs (tmp_path dst) w) in
    fs_after o !! tmp_path dst = None
    ∧ (is_Some (fs !! dst) → is_Some (fs_after o !! dst))).
  { intros tr w o.
    pose proof (apply_write_tmp_free fs _ w Hfree) as Hfree'.
    destruct (after_failure_clean (tmp_path dst) tr _ Hfree') as [_ Ht].
    split; [done|]. subst o.
    rewrite after_failure_ne by apply not_eq_sym, tmp_ne_dst.
    by rewrite apply_write_ne by apply not_eq_sym, tmp_ne_dst. }
  destruct (encoder fs src (tmp_path dst)) as [|w [|code]] eqn:E.
  - pose proof (Hfail [Popen src (tmp_path dst)] Untouched) as H.
    by rewrite apply_write_untouched in H.
  - apply Hfail.
  - destruct (code =? 0)%Z; [|apply Hfail].
    pose proof (apply_write_tmp_free fs _ w Hfree) as Hfree'.
    destruct (apply_write fs (tmp_path dst) w !! tmp_path dst)
      as [[d|sz]|] eqn:Et.
    + rewrite (rename_file _ _ _ _ Et).
      destruct (apply_write fs (tmp_path dst) w !! dst) as [[d'|sz']|] eqn:Ed;
        cbn [res fs_after]; try apply Hfail.
      all: split; [|by rewrite lookup_insert_eq].
      all: rewrite lookup_insert_ne by apply not_eq_sym, tmp_ne_dst.
      all: by rewrite lookup_delete_eq.
    + by destruct (Hfree' sz).
    + rewrite rename_missing by done. cbn [res]. apply Hfail.
Qed.

End TranscodeDiscipline.

(** X6. In live mode the transcode step starts the encoder exactly once,
    on the source and towards the temporary path; it removes no path but
    the temporary one and renames nothing but the temporary path to the
    output path. *)
Theorem transcode_calls_discipline
    (encoder : filesystem → path → path → enc_run)
    (src dst : path) (fs : filesystem) :
  let o := transcode_file encoder src dst false fs in
  launched (trace o) = [src]
  ∧ (∀ s t, Popen s t ∈ trace o → s = src ∧ t = tmp_path dst)
  ∧ (∀ p, Unlink p ∈ trace o → p = tmp_path dst)
  ∧ (∀ x y, Rename x y ∈ trace o → x = tmp_path dst ∧ y = dst).
Proof.
  intros o. subst o.
  destruct (transcode_file_trace_cases encoder src dst fs)
    as (code & tail & -> & Htail).
  assert (Hin : ∀ e,
            e ∈ Popen src (tmp_path dst)
                  :: match code with Some c => [Exit c] | None => [] end ++ tail →
            e = Popen src (tmp_path dst) ∨ (∃ c, e = Exit c)
            ∨ e = Unlink (tmp_path dst) ∨ e = Rename (tmp_path dst) dst).
  { intros e [->|H]%elem_of_cons; [by left|].
    apply elem_of_app in H as [H|H].
    - destruct code; [|by apply elem_of_nil in H].
      apply list_elem_of_singleton in H as ->. right; left. by eexists.
    - destruct Htail as [->|[->| ->]].
      + by apply elem_of_nil in H.
      + apply list_elem_of_singleton in H as ->. auto.
      + apply list_elem_of_singleton in H as ->. auto. }
  split; [|split; [|split]].
  - destruct code, Htail as [->|[->| ->]]; reflexivity.
  - intros s t [H|[[c H]|[H|H]]]%Hin; try discriminate H. by injection H.
  - intros p [H|[[c H]|[H|H]]]%Hin; try discriminate H. by injection H.
  - intros x y [H|[[c H]|[H|H]]]%Hin; try discriminate H. by injection H.
Qed.



(** X8. In commit mode, a regular file that is not skipped and whose
    encoding succeeds is recorded as processed with its output path, the
    total grows by its size minus the size of what the encoder wrote, the
    output path holds what the encoder wrote, and the source is removed
    and recorded as deleted exactly when --delete is given. *)
Theorem successful_candidate_is_processed
    (encoder : filesystem → path → path → enc_run)
    (a : args) (t : tally) (file : path) (fs : filesystem)
    (data out : list Byte.byte) :
  let dst := output_path file in
  let tmp := tmp_path dst in
  args_commit a = true →
  is_skip a fs file = false →
  fs !! file = Some (File data) →
  encoder fs file tmp = Ran (Written out) (Exited 0) →
  tmp_free fs tmp →
  (∀ sz, fs !! dst ≠ Some (Dir sz)) →
  let o := process_file encoder a t file fs in
  let t' := add_saved (add_processed t file dst)
                      (Z.of_nat (length data) - Z.of_nat (length out)) in
  res o = Ok (if args_delete a then add_deleted t' file else t')
  ∧ fs_after o !! dst = Some (File out)
  ∧ fs_after o !! tmp = None
  ∧ fs_after o !! file = (if args_delete a then None else Some (File data))
  ∧ trace o = [Popen file tmp; Exit 0; Rename tmp dst]
              ++ (if args_delete a then [Unlink file] else []).
Proof.
  intros dst tmp Hc Hskip Hfile Henc Hfree Hdst o t'.
  assert (Htmp : apply_write fs tmp (Written out) !! tmp = Some (File out)).
  { unfold apply_write. destruct (fs !! tmp) as [[d|sz]|] eqn:E;
      try by rewrite lookup_insert_eq.
    by destruct (Hfree sz). }
  pose proof (transcode_file_promoted encoder file dst fs _ out Henc Htmp Hdst)
    as Hstep.
  subst o. rewrite process_file_eq. cbv zeta.
  rewrite Hskip, Hfile, Hc. cbn [negb]. fold dst. rewrite Hstep.
  cbn [res fs_after trace]. fold tmp.
  rewrite lookup_insert_eq. cbn [node_size]. fold t'.
  assert (Hf : <[dst:=File out]> (delete tmp (apply_write fs tmp (Written out)))
               !! file = Some (File data)).
  { rewrite lookup_insert_ne by apply output_ne_file.
    rewrite lookup_delete_ne by apply tmp_ne_file.
    rewrite apply_write_ne by apply not_eq_sym, tmp_ne_file. done. }
  assert (Ht : <[dst:=File out]> (delete tmp (apply_write fs tmp (Written out)))
               !! tmp = None).
  { rewrite lookup_insert_ne by apply not_eq_sym, tmp_ne_dst.
    by rewrite lookup_delete_eq. }
  destruct (args_delete a); unfold unlink_then; rewrite ?Hf;
    cbn [res fs_after trace].
  - repeat split.
    + rewrite lookup_delete_ne by apply not_eq_sym, output_ne_file.
      by rewrite lookup_insert_eq.
    + rewrite lookup_delete_ne by apply not_eq_sym, tmp_ne_file. done.
    + by rewrite lookup_delete_eq.
  - repeat split; try done. by rewrite lookup_insert_eq.
Qed.

Lemma successful_candidate_is_processed_witness :
  let a := Args ["v"] "mkv" false false true true in
  let file : path := (["v"], "a.mkv") in
  let o := process_file enc_ok a tally0 file fs_a in
  res o = Ok (Tally [(file, output_path file)] [] [file] [] 2)
  ∧ fs_after o !! output_path file = Some (File [Byte.x09; Byte.x09])
  ∧ fs_after o !! tmp_path (output_path file) = None
  ∧ fs_after o !! file = None
  ∧ trace o = [Popen file (tmp_path (output_path file)); Exit 0;
               Rename (tmp_path (output_path file)) (output_path file);
               Unlink file].
Proof.
  apply (successful_candidate_is_processed enc_ok
           (Args ["v"] "mkv" false false true true) tally0 (["v"], "a.mkv") fs_a
           [Byte.x00; Byte.x01; Byte.x02; Byte.x03] [Byte.x09; Byte.x09]).
  - reflexivity.
  - vm_compute. reflexivity.
  - vm_compute. reflexivity.
  - reflexivity.
  - intros sz. vm_compute. discriminate.
  - intros sz. vm_compute. discriminate.
Defined.

(** ** The calls of a whole pass *)

Section PassCalls.

Variable encoder : filesystem → path → path → enc_run.

Lemma transcode_file_events (src dst : path) (fs : filesystem) (e : event) :
  e ∈ trace (transcode_file encoder src dst false fs) →
  e = Popen src (tmp_path dst) ∨ (∃ c, e = Exit c)
  ∨ e = Unlink (tmp_path dst) ∨ e = Rename (tmp_path dst) dst.
Proof.
  destruct (transcode_file_trace_cases encoder src dst fs)
    as (code & tail & -> & Htail).
  intros [->|H]%elem_of_cons; [by left|].
  apply elem_of_app in H as [H|H].
  - destruct code; [|by apply elem_of_nil in H].
    apply list_elem_of_singleton in H as ->. right; left. by eexists.
  - destruct Htail as [->|[->| ->]].
    + by apply elem_of_nil in H.
    + apply list_elem_of_singleton in H as ->. auto.
    + apply list_elem_of_singleton in H as ->. auto.
Qed.

(** The trace of the loop body: that of the transcode step when the
    candidate gets there, then the removal of the source when it is
    deleted. *)
Lemma process_file_trace (a : args) (t : tally) (file : path) (fs : filesystem) :
  ∃ (step : list event) (del : list event),
    trace (process_file encoder a t file fs) = step ++ del
    ∧ (step = []
       ∨ (args_commit a = true ∧ is_skip a fs file = false
          ∧ step = trace (transcode_file encoder file (output_path file) false fs)))
    ∧ (del = []
       ∨ (del = [Unlink file] ∧ args_commit a = true ∧ args_delete a = true)).
Proof.
  rewrite process_file_eq. cbv zeta. unfold unlink_then.
  destruct (is_skip a fs file) eqn:Hskip.
  - destruct (args_commit a) eqn:Hc, (args_delete a) eqn:Hd; cbn [andb];
      try (exists [], []; by auto 10).
    destruct (fs !! file) as [[d|sz]|]; cbn [trace].
    + exists [], [Unlink file]. auto 10.
    + exists [], []. auto 10.
    + exists [], []. auto 10.
  - destruct (fs !! file) as [n|]; [|exists [], []; by auto 10].
    destruct (args_commit a) eqn:Hc; cbn [negb].
    + set (o := transcode_file encoder file (output_path file) false fs).
      destruct (res o) as [[]|e]; cbn [trace];
        try (exists (trace o), []; rewrite app_nil_r; by auto 10).
      destruct (fs_after o !! output_path file) as [n'|]; cbn [trace];
        try (exists (trace o), []; rewrite app_nil_r; by auto 10).
      destruct (args_delete a) eqn:Hd; cbn [trace];
        try (exists (trace o), []; rewrite app_nil_r; by auto 10).
      destruct (fs_after o !! file) as [[d|sz]|]; cbn [trace];
        try (exists (trace o), []; rewrite app_nil_r; by auto 10).
      exists (trace o), [Unlink file]. auto 10.
    + rewrite transcode_file_dry. cbn [res trace]. exists [], []. auto 10.
Qed.

Lemma process_file_events (a : args) (t : tally) (file : path) (fs : filesystem)
    (e : event) :
  e ∈ trace (process_file encoder a t file fs) → candidate_call a file e.
Proof.
  destruct (process_file_trace a t file fs) as (step & del & -> & Hstep & Hdel).
  unfold candidate_call. intros [H|H]%elem_of_app.
  - destruct Hstep as [->|(_ & _ & ->)]; [by apply elem_of_nil in H|].
    apply transcode_file_events in H as [?|[?|[?|?]]]; auto.
  - destruct Hdel as [->|(-> & ? & ?)]; [by apply elem_of_nil in H|].
    apply list_elem_of_singleton in H as ->. auto 10.
Qed.

Lemma process_file_launched (a : args) (t : tally) (file : path) (fs : filesystem) :
  launched (trace (process_file encoder a t file fs)) = []
  ∨ launched (trace (process_file encoder a t file fs)) = [file].
Proof.
  destruct (process_file_trace a t file fs) as (step & del & -> & Hstep & Hdel).
  rewrite launched_app.
  assert (Hd : launched del = []) by by destruct Hdel as [->|(-> & _)].
  rewrite Hd, app_nil_r.
  destruct Hstep as [->|(_ & _ & ->)]; [by left|].
  right. apply transcode_file_launched.
Qed.

Lemma process_all_trace (a : args) (t : tally) (file : path) (rest : list path)
    (fs : filesystem) :
  ∃ tr, trace (process_all encoder a t (file :: rest) fs)
        = trace (process_file encoder a t file fs) ++ tr
        ∧ (tr = []
           ∨ ∃ t1, res (process_file encoder a t file fs) = Ok t1
                   ∧ tr = trace (process_all encoder a t1 rest
                                   (fs_after (process_file encoder a t file fs)))).
Proof.
  cbn [process_all]. rewrite bind_eq.
  destruct (res (process_file encoder a t file fs)) as [t1|e]; cbn [trace].
  - eexists. split; [done|]. right. by exists t1.
  - exists []. by rewrite app_nil_r; auto.
Qed.

Lemma process_all_events (a : args) (targets : list path) :
  ∀ (t : tally) (fs : filesystem) (e : event),
  e ∈ trace (process_all encoder a t targets fs) →
  ∃ file, file ∈ targets ∧ candidate_call a file e.
Proof.
  induction targets as [|file rest IH]; intros t fs e.
  - by intros H%elem_of_nil.
  - destruct (process_all_trace a t file rest fs) as (tr & -> & Htr).
    intros [H|H]%elem_of_app.
    + exists file. split; [by left|]. by eapply process_file_events.
    + destruct Htr as [->|(t1 & _ & ->)]; [by apply elem_of_nil in H|].
      apply IH in H as (g & Hg & Hcall). exists g. split; [by right|done].
Qed.

Lemma process_all_launched (a : args) (targets : list path) :
  ∀ (t : tally) (fs : filesystem),
  launched (trace (process_all encoder a t targets fs)) `sublist_of` targets.
Proof.
  induction targets as [|file rest IH]; intros t fs.
  - constructor.
  - destruct (process_all_trace a t file rest fs) as (tr & -> & Htr).
    rewrite launched_app.
    assert (Hrest : launched tr `sublist_of` rest).
    { destruct Htr as [->|(t1 & _ & ->)]; [apply sublist_nil_l|apply IH]. }
    destruct (process_file_launched a t file fs) as [-> | ->]; cbn [app].
    + by apply sublist_cons.
    + by apply sublist_skip.
Qed.

End PassCalls.

(** X9. Over a whole run the encoder is started at most once for each
    entry of the scan result, in scan order and on candidates only; each
    launch takes the candidate as input and the candidate's temporary path
    as output, which is neither the candidate nor its output path. *)
Theorem encoder_launched_once_per_candidate
    (scandir : filesystem → list path)
    (encoder : filesystem → path → path → enc_run) (a : args) (fs : filesystem) :
  let targets :=
    find_target_files scandir (args_start a) (args_ext a) (args_recursive a) fs in
  launched (trace (main scandir encoder a fs)) `sublist_of` targets
  ∧ ∀ src tmp, Popen src tmp ∈ trace (main scandir encoder a fs) →
      src ∈ targets ∧ tmp = tmp_path (output_path src)
      ∧ tmp ≠ src ∧ tmp ≠ output_path src.
Proof.
  intros targets. split; [apply process_all_launched|].
  intros src tmp (file & Hin & Hcall)%process_all_events.
  destruct Hcall as [H|[[c H]|[H|[H|[H _]]]]]; try discriminate H.
  injection H as -> ->. repeat split; try done.
  - apply tmp_ne_file.
  - apply tmp_ne_output.
Qed.

(** X10. Unless both --commit and --delete are given, a run removes
    nothing but temporary paths of candidates; in any case whatever it
    removes is a candidate or the temporary path of one, and whatever it
    renames is the temporary path of a candidate, to its output path. *)
Theorem only_delete_removes_sources
    (scandir : filesystem → list path)
    (encoder : filesystem → path → path → enc_run) (a : args) (fs : filesystem) :
  let targets :=
    find_target_files scandir (args_start a) (args_ext a) (args_recursive a) fs in
  (∀ p, Unlink p ∈ trace (main scandir encoder a fs) →
     ∃ file, file ∈ targets
       ∧ (p = tmp_path (output_path file)
          ∨ (p = file ∧ args_commit a = true ∧ args_delete a = true)))
  ∧ (∀ x y, Rename x y ∈ trace (main scandir encoder a fs) →
     ∃ file, file ∈ targets
       ∧ x = tmp_path (output_path file) ∧ y = output_path file).
Proof.
  intros targets. split.
  - intros p (file & Hin & Hcall)%process_all_events. exists file.
    split; [done|].
    destruct Hcall as [H|[[c H]|[H|[H|[H [? ?]]]]]]; try discriminate H.
    + left. by injection H.
    + right. by injection H as ->.
  - intros x y (file & Hin & Hcall)%process_all_events. exists file.
    split; [done|].
    destruct Hcall as [H|[[c H]|[H|[H|[H _]]]]]; try discriminate H.
    by injection H as -> ->.
Qed.

(** ** How the collections grow *)

Section Growth.

Variable encoder : filesystem → path → path → enc_run.

Lemma process_file_verdict_ok (a : args) (t : tally) (file : path)
    (fs : filesystem) (t' : tally) :
  res (process_file encoder a t file fs) = Ok t' →
  ∃ v, t' = record_verdict t file v ∧ verdict_ok a v.
Proof.
  rewrite process_file_eq. cbv zeta. unfold unlink_then, is_skip.
  destruct (bool_decide _ && negb (args_reprocess a)) eqn:Hskip.
  - apply andb_true_iff in Hskip as [_ Hr%negb_true_iff].
    destruct (args_commit a && args_delete a) eqn:Hcd.
    + destruct (fs !! file) as [[d|sz]|]; [|done..].
      intros [= <-]. by exists (VSkipped true).
    + intros [= <-]. by exists (VSkipped false).
  - destruct (fs !! file) as [n|]; [|done].
    destruct (args_commit a) eqn:Hc; cbn [negb andb].
    + set (o := transcode_file encoder file (output_path file) false fs).
      destruct (res o) as [[]|e]; [| |done].
      * destruct (fs_after o !! output_path file) as [n'|]; [|done].
        destruct (args_delete a) eqn:Hd.
        -- destruct (fs_after o !! file) as [[d|sz]|]; [|done..].
           intros [= <-]. eexists (VProcessed (Some _) true).
           split; [reflexivity|]. cbn [verdict_ok]. rewrite Hc, Hd.
           split; [done|split; discriminate].
        -- intros [= <-]. eexists (VProcessed (Some _) false).
           split; [reflexivity|]. cbn [verdict_ok]. rewrite Hc, Hd.
           split; [done|split; discriminate].
      * intros [= <-]. by exists VFailed.
    + rewrite transcode_file_dry. cbn [res]. intros [= <-].
      exists (VProcessed None false).
      split; [reflexivity|]. cbn [verdict_ok]. by rewrite Hc.
Qed.

Lemma sublist_step (x : path) (l1 l2 rest : list path) :
  l1 = [] ∨ l1 = [x] → l2 `sublist_of` rest → l1 ++ l2 `sublist_of` x :: rest.
Proof.
  intros [-> | ->] H; cbn [app]; [by apply sublist_cons|by apply sublist_skip].
Qed.

Ltac grow_sublist :=
  cbn [app]; first [ by apply sublist_skip | by apply sublist_cons ].

Lemma process_all_growth (a : args) (targets : list path) :
  ∀ (t : tally) (fs : filesystem) (t' : tally),
  res (process_all encoder a t targets fs) = Ok t' →
  ∃ p s f d,
    processed t' = processed t ++ p ∧ skipped t' = skipped t ++ s
    ∧ failed t' = failed t ++ f ∧ deleted t' = deleted t ++ d
    ∧ growth a targets p s f d.
Proof.
  induction targets as [|file rest IH]; intros t fs t' H.
  - injection H as <-. exists [], [], [], []. rewrite !app_nil_r.
    repeat split; try done; constructor.
  - cbn [process_all] in H. apply bind_res_Ok in H as (t1 & H1 & H).
    apply process_file_verdict_ok in H1 as (v & -> & Hv).
    apply IH in H as (p & s & f & d & Hp & Hs & Hf & Hd & [H1 H2 H3 H4 H5 H6 H7 H8 H9]).
    destruct v as [del|saved del|]; cbn [verdict_ok] in Hv.
    + destruct Hv as [Hr ->].
      destruct (args_commit a && args_delete a) eqn:Hcd;
        cbn [record_verdict add_skipped add_deleted processed skipped failed deleted]
          in Hp, Hs, Hf, Hd.
      * exists p, ([file] ++ s), f, ([file] ++ d).
        rewrite Hp, Hs, Hf, Hd, <-!(assoc_L (++)).
        repeat split; try done; try grow_sublist; try (intros; congruence).
        intros _. rewrite (H9 eq_refl). cbn [app]. solve_Permutation.
      * exists p, ([file] ++ s), f, d.
        rewrite Hp, Hs, Hf, Hd, <-!(assoc_L (++)).
        repeat split; try done; try grow_sublist; try (intros; congruence).
        intros _. by apply H8.
    + destruct Hv as [-> Hsaved].
      assert (Hp' : processed t' = processed t ++ [(file, output_path file)] ++ p).
      { rewrite Hp, (assoc_L (++)). by destruct saved, (_ && _). }
      assert (Hs' : skipped t' = skipped t ++ s).
      { rewrite Hs. by destruct saved, (_ && _). }
      assert (Hf' : failed t' = failed t ++ f).
      { rewrite Hf. by destruct saved, (_ && _). }
      destruct (args_commit a && args_delete a) eqn:Hcd.
      * exists ([(file, output_path file)] ++ p), s, f, ([file] ++ d).
        split; [done|]. split; [done|]. split; [done|].
        split; [rewrite Hd, (assoc_L (++)); by destruct saved|].
        constructor; try done; try grow_sublist; try (intros; congruence);
          try (by constructor).
        intros _. rewrite (H9 eq_refl). done.
      * exists ([(file, output_path file)] ++ p), s, f, d.
        split; [done|]. split; [done|]. split; [done|].
        split; [rewrite Hd; by destruct saved|].
        constructor; try done; try grow_sublist; try (intros; congruence);
          try (by constructor).
        intros _. by apply H8.
    + cbn [record_verdict add_failed processed skipped failed deleted]
        in Hp, Hs, Hf, Hd.
      exists p, s, ([file] ++ f), d.
      rewrite Hp, Hs, Hf, Hd, <-!(assoc_L (++)).
      repeat split; try done; try grow_sublist; try (intros; congruence).
Qed.

End Growth.

Lemma main_growth (scandir : filesystem → list path)
    (encoder : filesystem → path → path → enc_run) (a : args) (fs : filesystem)
    (t : tally) :
  res (main scandir encoder a fs) = Ok t →
  growth a (find_target_files scandir (args_start a) (args_ext a)
                              (args_recursive a) fs)
         (processed t) (skipped t) (failed t) (deleted t).
Proof.
  unfold main. intros H.
  apply process_all_growth in H as (p & s & f & d & -> & -> & -> & -> & H).
  done.
Qed.

(** X11. With --reprocess nothing is skipped: when the run returns, the
    skipped collection is empty, whatever outputs exist already. *)
Theorem reprocess_skips_nothing
    (scandir : filesystem → list path)
    (encoder : filesystem → path → path → enc_run) (a : args) (fs : filesystem)
    (t : tally) :
  args_reprocess a = true →
  res (main scandir encoder a fs) = Ok t →
  skipped t = [].
Proof. intros Hr [_ _ _ _ _ H _ _ _]%main_growth. by apply H. Qed.

Lemma reprocess_skips_nothing_witness :
  skipped (Tally [((["v"], "b.mkv"), (["v"], "b-converted.mp4"))] [] [] [] 1) = [].
Proof.
  apply (reprocess_skips_nothing entries enc_ok
           (Args ["v"] "mkv" false true false true) fs_b).
  - reflexivity.
  - vm_compute. reflexivity.
Defined.

(** X12. When a run returns, each of the four collections lists candidates
    in scan order, without repeating a position; every processed pair is a
    candidate with its own output path; and the three counts of processed,
    skipped and failed add up to the number of candidates found. *)
Theorem collections_follow_scan_order
    (scandir : filesystem → list path)
    (encoder : filesystem → path → path → enc_run) (a : args) (fs : filesystem)
    (t : tally) :
  res (main scandir encoder a fs) = Ok t →
  let targets :=
    find_target_files scandir (args_start a) (args_ext a) (args_recursive a) fs in
  (processed t).*1 `sublist_of` targets
  ∧ skipped t `sublist_of` targets
  ∧ failed t `sublist_of` targets
  ∧ deleted t `sublist_of` targets
  ∧ Forall (λ pr, pr.2 = output_path pr.1) (processed t)
  ∧ length (processed t) + length (skipped t) + length (failed t)
    = length targets.
Proof.
  intros Hres targets.
  destruct (main_growth scandir encoder a fs t Hres) as [H1 H2 H3 H4 H5 _ _ _ _].
  repeat split; try done.
  unfold main in Hres. apply process_all_classified in Hres as (Hperm & _).
  apply Permutation_length in Hperm. unfold classified in Hperm.
  rewrite !length_app, length_fmap in Hperm. cbn in Hperm. fold targets in Hperm.
  lia.
Qed.

Lemma collections_follow_scan_order_witness :
  let t := Tally [((["v"], "b.mkv"), (["v"], "b-converted.mp4"))]
                 [(["v"], "a.mkv")]
                 [(["v"], "a.mkv"); (["v"], "b.mkv")]
                 [(["v"], "c.mkv")] 2 in
  let targets := find_target_files entries ["v"] "mkv" false fs_mix in
  (processed t).*1 `sublist_of` targets
  ∧ skipped t `sublist_of` targets
  ∧ failed t `sublist_of` targets
  ∧ deleted t `sublist_of` targets
  ∧ Forall (λ pr, pr.2 = output_path pr.1) (processed t)
  ∧ length (processed t) + length (skipped t) + length (failed t)
    = length targets.
Proof.
  apply (collections_follow_scan_order entries enc_mixed
           (Args ["v"] "mkv" false false true true) fs_mix
           (Tally [((["v"], "b.mkv"), (["v"], "b-converted.mp4"))]
                  [(["v"], "a.mkv")]
                  [(["v"], "a.mkv"); (["v"], "b.mkv")]
                  [(["v"], "c.mkv")] 2)).
  vm_compute. reflexivity.
Defined.

(** X13. When a run returns: with both --commit and --delete the deleted
    collection is a rearrangement of the processed candidates followed by
    the skipped ones; otherwise it is empty. *)
Theorem deleted_is_processed_and_skipped
    (scandir : filesystem → list path)
    (encoder : filesystem → path → path → enc_run) (a : args) (fs : filesystem)
    (t : tally) :
  res (main scandir encoder a fs) = Ok t →
  (args_commit a && args_delete a = true →
     deleted t ≡ₚ (processed t).*1 ++ skipped t)
  ∧ (args_commit a && args_delete a = false → deleted t = []).
Proof. intros [_ _ _ _ _ _ _ H8 H9]%main_growth. by split. Qed.

Lemma deleted_is_processed_and_skipped_witness :
  let t := Tally [((["v"], "b.mkv"), (["v"], "b-converted.mp4"))]
                 [(["v"], "a.mkv")]
                 [(["v"], "a.mkv"); (["v"], "b.mkv")]
                 [(["v"], "c.mkv")] 2 in
  deleted t ≡ₚ (processed t).*1 ++ skipped t.
Proof.
  refine (proj1 (deleted_is_processed_and_skipped entries enc_mixed
            (Args ["v"] "mkv" false false true true) fs_mix
            (Tally [((["v"], "b.mkv"), (["v"], "b-converted.mp4"))]
                   [(["v"], "a.mkv")]
                   [(["v"], "a.mkv"); (["v"], "b.mkv")]
                   [(["v"], "c.mkv")] 2) _) eq_refl).
  vm_compute. reflexivity.
Defined.

(** ** The file system at the end of a pass *)

Section EndState.

Variable encoder : filesystem → path → path → enc_run.

Lemma process_file_step (a : args) (t : tally) (file : path) (fs : filesystem)
    (data : list Byte.byte) :
  fs !! file = Some (File data) →
  tmp_free fs (tmp_path (output_path file)) →
  ∃ v, res (process_file encoder a t file fs) = Ok (record_verdict t file v)
       ∧ step_effect a fs (fs_after (process_file encoder a t file fs)) file data v.
Proof.
  intros Hfile Hfree. rewrite process_file_eq. cbv zeta.
  unfold unlink_then, step_effect. cbv zeta.
  pose proof (output_ne_file file) as Hdf.
  pose proof (tmp_ne_file file) as Htf.
  destruct (is_skip a fs file).
  - destruct (args_commit a && args_delete a).
    + rewrite Hfile. exists (VSkipped true). cbn [res fs_after verdict_deletes].
      split; [done|]. repeat split.
      * intros p Hp _ _. by rewrite lookup_delete_ne.
      * by rewrite lookup_delete_ne.
      * by rewrite lookup_delete_ne.
      * by rewrite lookup_delete_eq.
    + exists (VSkipped false). cbn [res fs_after verdict_deletes]. by repeat split.
  - rewrite Hfile. destruct (args_commit a) eqn:Hc; cbn [negb].
    + destruct (transcode_file_tmp_free encoder file (output_path file) fs Hfree)
        as ([b Hb] & Hframe & _ & Hdst).
      destruct (transcode_file_tmp_gone encoder file (output_path file) fs Hfree)
        as [Hgone Hkeep].
      set (o := transcode_file encoder file (output_path file) false fs) in *.
      assert (Hf : fs_after o !! file = Some (File data)).
      { rewrite Hframe; [done|by apply not_eq_sym..]. }
      rewrite Hb. destruct b.
      * destruct (Hdst Hb) as [d' Hd']. rewrite Hd'.
        destruct (args_delete a).
        -- rewrite Hf. eexists (VProcessed (Some _) true).
           cbn [res fs_after verdict_deletes]. split; [done|]. repeat split.
           ++ intros p Hp Ht Hd. rewrite lookup_delete_ne by done. by apply Hframe.
           ++ intros _. by rewrite lookup_delete_ne, Hd'.
           ++ intros _. by rewrite lookup_delete_ne.
           ++ by rewrite lookup_delete_eq.
           ++ by rewrite lookup_delete_ne.
           ++ by rewrite lookup_delete_ne, Hd'.
        -- eexists (VProcessed (Some _) false).
           cbn [res fs_after verdict_deletes]. split; [done|]. repeat split;
             try done.
           all: try (intros p Hp Ht Hd; by apply Hframe).
           all: by rewrite Hd'.
      * exists VFailed. cbn [res fs_after verdict_deletes]. split; [done|].
        repeat split; try done.
        all: intros p Hp Ht Hd; by apply Hframe.
    + rewrite transcode_file_dry. exists (VProcessed None false).
      cbn [res fs_after verdict_deletes]. by repeat split.
Qed.

(** The rest of a tidy scan result is tidy in the file system the loop body
    leaves. *)
Lemma tidy_step (a : args) (t : tally) (file : path) (rest : list path)
    (fs : filesystem) :
  tidy fs (file :: rest) →
  tidy (fs_after (process_file encoder a t file fs)) rest.
Proof.
  intros (Hnd & Hfiles & Hfree & Hsep).
  destruct (Hfiles file) as [data Hfile]; [by left|].
  destruct (process_file_total encoder a t file fs data Hfile) as (_ & Hframe & Hdir).
  { apply Hfree. by left. }
  apply NoDup_cons in Hnd as [Hnotin Hnd].
  split; [done|]. split; [|split].
  - intros g Hg. rewrite Hframe.
    + apply Hfiles. by right.
    + intros ->. done.
    + apply (Hsep file g); [by left|by right].
    + apply (Hsep file g); [by left|by right].
  - intros g Hg sz H%Hdir. revert H. apply Hfree. by right.
  - intros f g Hf Hg. apply Hsep; by right.
Qed.

(** A path that is no candidate, no temporary path and no output path of a
    candidate is left alone by the whole pass. *)
Lemma process_all_frame (a : args) (targets : list path) :
  ∀ (t : tally) (fs : filesystem) (p : path),
  tidy fs targets →
  (∀ g, g ∈ targets →
     p ≠ g ∧ p ≠ tmp_path (output_path g) ∧ p ≠ output_path g) →
  fs_after (process_all encoder a t targets fs) !! p = fs !! p.
Proof.
  induction targets as [|file rest IH]; intros t fs p Htidy Hp; [done|].
  pose proof (tidy_step a t file rest fs Htidy) as Htidy'.
  destruct Htidy as (Hnd & Hfiles & Hfree & Hsep).
  destruct (Hfiles file) as [data Hfile]; [by left|].
  destruct (process_file_total encoder a t file fs data Hfile)
    as ([t1 Ht1] & Hframe & _).
  { apply Hfree. by left. }
  cbn [process_all]. rewrite bind_eq, Ht1. cbn [fs_after].
  rewrite IH; [|done|intros g Hg; apply Hp; by right].
  destruct (Hp file) as (? & ? & ?); [by left|]. by apply Hframe.
Qed.

End EndState.

Section EndStateRun.

Variable encoder : filesystem → path → path → enc_run.

Lemma record_verdict_lists (t : tally) (file : path) (v : verdict) :
  processed (record_verdict t file v) = processed t ++ (verdict_lists file v).1.1.1
  ∧ skipped (record_verdict t file v) = skipped t ++ (verdict_lists file v).1.1.2
  ∧ failed (record_verdict t file v) = failed t ++ (verdict_lists file v).1.2
  ∧ deleted (record_verdict t file v) = deleted t ++ (verdict_lists file v).2.
Proof. destruct v as [[]|[n|] []|]; cbn; by rewrite ?app_nil_r. Qed.

Lemma process_all_unfold (a : args) (t t1 : tally) (file : path)
    (rest : list path) (fs : filesystem) :
  res (process_file encoder a t file fs) = Ok t1 →
  res (process_all encoder a t (file :: rest) fs)
  = res (process_all encoder a t1 rest (fs_after (process_file encoder a t file fs)))
  ∧ fs_after (process_all encoder a t (file :: rest) fs)
    = fs_after (process_all encoder a t1 rest
                  (fs_after (process_file encoder a t file fs))).
Proof. intros H. cbn [process_all]. by rewrite bind_eq, H. Qed.

(** Over a tidy scan result, a temporary path that holds nothing at the
    start holds nothing at the end. *)
Lemma process_all_tmp_absent (a : args) (targets : list path) :
  ∀ (t : tally) (fs : filesystem) (q : path),
  tidy fs targets →
  (∀ g, g ∈ targets → g ≠ tmp_path (output_path q)) →
  fs !! tmp_path (output_path q) = None →
  fs_after (process_all encoder a t targets fs) !! tmp_path (output_path q) = None.
Proof.
  induction targets as [|file rest IH]; intros t fs q Htidy Hq Hnone; [done|].
  pose proof (tidy_step encoder a t file rest fs Htidy) as Htidy'.
  destruct Htidy as (Hnd & Hfiles & Hfree & Hsep).
  destruct (Hfiles file) as [data Hfile]; [by left|].
  destruct (process_file_step encoder a t file fs data Hfile)
    as (v & Hres & Hframe & _ & Htmp & _); [apply Hfree; by left|].
  destruct (process_all_unfold a t _ file rest fs Hres) as [_ ->].
  apply IH; [done|intros g Hg; apply Hq; by right|].
  destruct (decide (tmp_path (output_path q) = tmp_path (output_path file)))
    as [Heq|Hne].
  - rewrite Heq in Hnone |- *. by apply Htmp.
  - rewrite Hframe; [done| |done|].
    + apply not_eq_sym, Hq. by left.
    + apply not_eq_sym, output_ne_tmp.
Qed.

(** Over a tidy scan result, what exists at a path that is neither a
    candidate nor a temporary path of one is not removed. *)
Lemma process_all_keeps (a : args) (targets : list path) :
  ∀ (t : tally) (fs : filesystem) (p : path),
  tidy fs targets →
  (∀ g, g ∈ targets → p ≠ g ∧ p ≠ tmp_path (output_path g)) →
  is_Some (fs !! p) →
  is_Some (fs_after (process_all encoder a t targets fs) !! p).
Proof.
  induction targets as [|file rest IH]; intros t fs p Htidy Hp Hsome; [done|].
  pose proof (tidy_step encoder a t file rest fs Htidy) as Htidy'.
  destruct Htidy as (Hnd & Hfiles & Hfree & Hsep).
  destruct (Hfiles file) as [data Hfile]; [by left|].
  destruct (process_file_step encoder a t file fs data Hfile)
    as (v & Hres & Hframe & Hkeep & _); [apply Hfree; by left|].
  destruct (process_all_unfold a t _ file rest fs Hres) as [_ ->].
  apply IH; [done|intros g Hg; apply Hp; by right|].
  destruct (Hp file) as [Hpf Hpt]; [by left|].
  destruct (decide (p = output_path file)) as [->|Hne]; [by apply Hkeep|].
  by rewrite Hframe.
Qed.

End EndStateRun.

Lemma verdict_lists_elem (file : path) (v : verdict) (x : path) :
  (x ∈ (verdict_lists file v).1.1.1.*1 → x = file ∧ ∃ s d, v = VProcessed s d)
  ∧ (x ∈ (verdict_lists file v).1.2 → x = file ∧ v = VFailed)
  ∧ (x ∈ (verdict_lists file v).2 → x = file ∧ verdict_deletes v = true).
Proof.
  split; [|split]; intros Hx; destruct v as [[]|s []|]; cbn in Hx;
    try (by apply elem_of_nil in Hx);
    apply list_elem_of_singleton in Hx as ->; eauto.
Qed.

Section EndStateInduction.

Variable encoder : filesystem → path → path → enc_run.

Lemma process_all_end_state (a : args) (targets : list path) :
  ∀ (t : tally) (fs : filesystem) (t' : tally),
  tidy fs targets →
  res (process_all encoder a t targets fs) = Ok t' →
  ∃ p s f d,
    processed t' = processed t ++ p ∧ skipped t' = skipped t ++ s
    ∧ failed t' = failed t ++ f ∧ deleted t' = deleted t ++ d
    ∧ (∀ x, x ∈ p.*1 ∨ x ∈ f ∨ x ∈ d → x ∈ targets)
    ∧ end_state a targets fs (fs_after (process_all encoder a t targets fs)) p f d.
Proof.
  induction targets as [|file rest IH]; intros t fs t' Htidy H.
  - injection H as <-. exists [], [], [], []. rewrite !app_nil_r.
    split; [done|]. split; [done|]. split; [done|]. split; [done|]. split.
    + intros y [Hy|[Hy|Hy]]; by apply elem_of_nil in Hy.
    + by intros y Hy%elem_of_nil.
  - pose proof (tidy_step encoder a t file rest fs Htidy) as Htidy'.
    pose proof Htidy as (Hnd & Hfiles & Hfree & Hsep).
    apply NoDup_cons in Hnd as [Hnotin Hnd].
    destruct (Hfiles file) as [data Hfile]; [by left|].
    destruct (process_file_step encoder a t file fs data Hfile)
      as (v & Hres & Hframe & Hkeep & Htmp & Hfate & Hv); [apply Hfree; by left|].
    destruct (process_all_unfold encoder a t _ file rest fs Hres) as [Hr Hfs].
    rewrite Hr in H. rewrite Hfs.
    set (fs1 := fs_after (process_file encoder a t file fs)) in *.
    destruct (IH _ fs1 t' Htidy' H) as (p2 & s2 & f2 & d2 & Hp & Hs & Hf & Hd & Hmem & Hend).
    destruct (record_verdict_lists t file v) as (Ep & Es & Ef & Ed).
    rewrite Ep in Hp. rewrite Es in Hs. rewrite Ef in Hf. rewrite Ed in Hd.
    set (vl := verdict_lists file v) in *.
    exists (vl.1.1.1 ++ p2), (vl.1.1.2 ++ s2), (vl.1.2 ++ f2), (vl.2 ++ d2).
    rewrite !(assoc_L (++)).
    split; [done|]. split; [done|]. split; [done|]. split; [done|].
    assert (Hmem' : ∀ x, x ∈ (vl.1.1.1 ++ p2).*1 ∨ x ∈ vl.1.2 ++ f2 ∨ x ∈ vl.2 ++ d2 →
                         x ∈ file :: rest).
    { intros x. rewrite fmap_app, !elem_of_app.
      destruct (verdict_lists_elem file v x) as (H1 & H2 & H3). fold vl in H1, H2, H3.
      intros [[Hx|Hx]|[[Hx|Hx]|[Hx|Hx]]].
      - apply H1 in Hx as [-> _]. by left.
      - right. apply Hmem. auto.
      - apply H2 in Hx as [-> _]. by left.
      - right. apply Hmem. auto.
      - apply H3 in Hx as [-> _]. by left.
      - right. apply Hmem. auto. }
    split; [done|].
    assert (Hfinal_file :
      fs_after (process_all encoder a (record_verdict t file v) rest fs1) !! file
      = fs1 !! file).
    { apply process_all_frame; [done|]. intros g Hg.
      destruct (Hsep g file) as [? ?]; [by right|by left|].
      split; [|done]. intros ->. done. }
    intros x Hx. rewrite fmap_app, !elem_of_app.
    destruct (verdict_lists_elem file v x) as (H1 & H2 & H3). fold vl in H1, H2, H3.
    apply elem_of_cons in Hx as [->|Hx].
    + assert (Hn2 : (file ∉ p2.*1) ∧ (file ∉ f2) ∧ (file ∉ d2)).
      { repeat split; intros Hin; apply Hnotin, Hmem; auto. }
      destruct Hn2 as (Hnp & Hnf & Hnd2).
      split; [|split; [|split]].
      * intros [Hin|Hin]; [|done]. apply H3 in Hin as [_ Hdel].
        rewrite Hfinal_file, Hfate. by rewrite Hdel.
      * intros Hnot. rewrite Hfinal_file, Hfate, Hfile.
        destruct (verdict_deletes v) eqn:Hdel; [|done].
        destruct Hnot. left. unfold vl, verdict_lists. cbn. rewrite Hdel. by left.
      * intros [Hin|Hin] Hc; [|done]. apply H1 in Hin as [_ (s & d & ->)].
        destruct (Hv Hc) as [Hnone Hsome]. split.
        -- apply process_all_keeps; [done| |done]. intros g Hg.
           destruct (Hsep file g) as [? ?]; [by left|by right|].
           split; [by apply not_eq_sym|apply output_ne_tmp].
        -- apply process_all_tmp_absent; [done| |done]. intros g Hg.
           by destruct (Hsep file g) as [? ?]; [by left|by right|].
      * intros [Hin|Hin]; [|done]. apply H2 in Hin as [_ ->].
        apply process_all_tmp_absent; [done| |done]. intros g Hg.
        by destruct (Hsep file g) as [? ?]; [by left|by right|].
    + assert (Hxf : x ≠ file) by (intros ->; done).
      destruct (Hend x Hx) as (E1 & E2 & E3 & E4).
      destruct (Hsep file x) as [Hxt Hxd]; [by left|by right|].
      split; [|split; [|split]].
      * intros [Hin|Hin]; [by apply H3 in Hin as [? _]|by apply E1].
      * intros Hnot. rewrite E2; [by apply Hframe|]. intros Hin. apply Hnot. by right.
      * intros [Hin|Hin]; [by apply H1 in Hin as [? _]|by apply E3].
      * intros [Hin|Hin]; [by apply H2 in Hin as [? _]|by apply E4].
Qed.

End EndStateInduction.

Lemma tidy_fs_mix :
  tidy fs_mix (find_target_files entries ["v"] "mkv" false fs_mix).
Proof.
  assert (Ht : find_target_files entries ["v"] "mkv" false fs_mix
               = [(["v"], "c.mkv"); (["v"], "a.mkv"); (["v"], "b.mkv")])
    by (vm_compute; reflexivity).
  rewrite Ht. unfold tidy. split; [|split; [|split]].
  - apply NoDup_ListNoDup. repeat constructor; simpl; intuition congruence.
  - intros f Hf. apply list_elem_of_In in Hf. simpl in Hf.
    destruct Hf as [<-|[<-|[<-|[]]]]; vm_compute; eauto.
  - intros f Hf sz. apply list_elem_of_In in Hf. simpl in Hf.
    destruct Hf as [<-|[<-|[<-|[]]]]; vm_compute; discriminate.
  - intros f g Hf Hg. apply list_elem_of_In in Hf, Hg. simpl in Hf, Hg.
    destruct Hf as [<-|[<-|[<-|[]]]]; destruct Hg as [<-|[<-|[<-|[]]]];
      split; vm_compute; discriminate.
Defined.

(** X14. When the candidates found are distinct regular files, nothing
    sits at their temporary paths and none of them is the output or the
    temporary path of another, then when the run returns every candidate
    recorded as deleted is gone and every other candidate is exactly what
    it was at the start: a source is never modified, and never removed
    without being reported. *)
Theorem sources_survive_unless_deleted
    (scandir : filesystem → list path)
    (encoder : filesystem → path → path → enc_run) (a : args) (fs : filesystem)
    (t : tally) (x : path) :
  let targets :=
    find_target_files scandir (args_start a) (args_ext a) (args_recursive a) fs in
  tidy fs targets →
  res (main scandir encoder a fs) = Ok t →
  x ∈ targets →
  (x ∈ deleted t → fs_after (main scandir encoder a fs) !! x = None)
  ∧ ((x ∉ deleted t) → fs_after (main scandir encoder a fs) !! x = fs !! x).
Proof.
  intros targets Htidy Hres Hx. unfold main in *. fold targets in Hres |- *.
  apply process_all_end_state in Hres
    as (p & s & f & d & _ & _ & _ & Hd & _ & Hend); [|done].
  cbn in Hd. subst d. destruct (Hend x Hx) as (H1 & H2 & _). by split.
Qed.

Lemma sources_survive_unless_deleted_witness :
  let a := Args ["v"] "mkv" false false true true in
  let t := Tally [((["v"], "b.mkv"), (["v"], "b-converted.mp4"))]
                 [(["v"], "a.mkv")]
                 [(["v"], "a.mkv"); (["v"], "b.mkv")]
                 [(["v"], "c.mkv")] 2 in
  let x : path := (["v"], "c.mkv") in
  (x ∈ deleted t → fs_after (main entries enc_mixed a fs_mix) !! x = None)
  ∧ ((x ∉ deleted t) → fs_after (main entries enc_mixed a fs_mix) !! x = fs_mix !! x).
Proof.
  apply (sources_survive_unless_deleted entries enc_mixed
           (Args ["v"] "mkv" false false true true) fs_mix
           (Tally [((["v"], "b.mkv"), (["v"], "b-converted.mp4"))]
                  [(["v"], "a.mkv")]
                  [(["v"], "a.mkv"); (["v"], "b.mkv")]
                  [(["v"], "c.mkv")] 2) (["v"], "c.mkv")).
  - exact tidy_fs_mix.
  - vm_compute. reflexivity.
  - apply list_elem_of_In. vm_compute. left. reflexivity.
Defined.



(** ** The progress display *)

Lemma prefix_app_iff (p s : string) :
  String.prefix p s = true ↔ ∃ rest, s = p +:+ rest.
Proof.
  revert s. induction p as [|a p IH]; intros s.
  - split; [|by destruct s]. intros _. by exists s.
  - destruct s as [|b s]; simpl.
    + split; [done|]. by intros [rest Hrest].
    + destruct (Ascii.ascii_dec a b) as [<-|Hne].
      * rewrite IH. split; intros [rest Hrest]; exists rest.
        -- by rewrite str_app_cons, Hrest.
        -- rewrite str_app_cons in Hrest. congruence.
      * split; [done|]. intros [rest Hrest].
        rewrite str_app_cons in Hrest. congruence.
Qed.

Lemma rstrip_nonspace c (s : string) :
  is_space c = false → rstrip (String c s) = String c (rstrip s).
Proof. intros Hc. simpl. destruct (rstrip s); by rewrite ?Hc. Qed.

Lemma strip_marker (rest : string) :
  strip ("Encoding:" +:+ rest) = "Encoding:" +:+ rstrip rest.
Proof.
  unfold strip. rewrite !str_app_cons, str_app_nil.
  cbn [lstrip]. replace (is_space "E") with false by reflexivity.
  by rewrite !rstrip_nonspace by reflexivity.
Qed.

(** X16. The progress display shows exactly the output lines that begin
    with the marker [Encoding:], each as the marker followed by the rest of
    the line without its trailing white space and a carriage return: the
    stripping never touches the marker, and a line with anything (white
    space included) before the marker is not shown. *)
Theorem progress_display_shows_marked_lines (lines : list string) (item : string) :
  item ∈ progress_display lines ↔
    ∃ rest, "Encoding:" +:+ rest ∈ lines
            ∧ item = ("Encoding:" +:+ rstrip rest) +:+ carriage_return.
Proof.
  unfold progress_display. rewrite list_elem_of_fmap. split.
  - intros (line & -> & Hline). apply list_elem_of_filter in Hline as [Hp Hin].
    apply prefix_app_iff in Hp as [rest ->]. exists rest.
    by rewrite strip_marker.
  - intros (rest & Hin & ->). exists ("Encoding:" +:+ rest). split.
    + by rewrite strip_marker.
    + apply list_elem_of_filter. split; [|done]. apply prefix_app_iff. by exists rest.
Qed.
